(** * The MixxClub plug-in shell: parameter store, MIDI learn, sidechain
      routing (src/App.tsx) and the MixxVerb visualizer bridge
      (src/src/components/plugins/MixxVerb.tsx).

    JavaScript numbers are modelled as rationals [Q] (exact arithmetic, no
    rounding, no NaN or infinities); objects live in an explicit heap so that
    reference identity can be told apart from equality of contents. *)

From Stdlib Require Import Ascii QArith Qround Qabs Lqa.
From stdpp Require Import base gmap strings list pretty.

(** ** JavaScript values and the object heap *)

Module Js.

Definition loc := positive.

Inductive value :=
| VUndefined
| VNull
| VBool (b : bool)
| VNumber (q : Q)
| VString (s : string)
| VRef (l : loc).

(** An object is its own enumerable properties; the heap maps references to
    objects. *)
Abbreviation obj := (gmap string value).
Abbreviation heap := (gmap loc obj).

(** An object literal allocates a fresh reference. *)
Definition alloc (h : heap) (o : obj) : heap * loc :=
  let l := fresh (dom h) in (<[l := o]> h, l).

(** [{...v}]: the own properties of the object [v] refers to; spreading
    [undefined], [null] or a primitive contributes nothing. *)
Definition spread (h : heap) (v : value) : obj :=
  match v with
  | VRef l => default ∅ (h !! l)
  | _ => ∅
  end.

(** [o[k]]: a missing property reads as [undefined]. *)
Definition get (o : obj) (k : string) : value := default VUndefined (o !! k).

(** [{...a, ...b}]: the properties of [b] win. *)
Definition merge (a b : obj) : obj := b ∪ a.

End Js.

(** ** src/App.tsx: the session state and its handlers *)

Module App.
Import Js.

Definition PluginKey := string.

(** The value of a MIDI mapping; [midiLearnTarget] has the same four fields. *)
Record MidiMapping := mkMidiMapping {
  pluginKey : PluginKey;
  paramName : string;
  min : Q;
  max : Q
}.

Record SidechainLink := mkSidechainLink {
  from : PluginKey;
  to : PluginKey
}.

(** A preset holds a reference to the settings mapping saved with it. *)
Record Preset := mkPreset {
  name : string;
  states : loc
}.

(** A control-change message: [data] is [status, cc, value]; [target] is the
    id of the input port the message came from, when there is one. *)
Record MIDIMessageEvent := mkMIDIMessageEvent {
  status : N;
  cc : N;
  value : N;
  target : option string
}.

(** Events handed to [PrimeBrainStub.sendEvent]. *)
Inductive TelemetryEvent :=
| midi_mapped (deviceId : string) (controller : N) (m : MidiMapping)
| midi_learn_started (k : PluginKey) (p : string)
| preset_loaded (n : string)
| sidechain_linked (l : SidechainLink)
| sidechain_unlinked (l : SidechainLink).

(** The React state of [App] that the handlers below read and write.
    [pluginStates] is a reference to the current settings mapping, an object
    whose property [k] refers to the settings object of plug-in [k]. The
    handlers are closures over the state of the render that made them and
    React makes them anew when that state changes: each handler here reads
    the current state. Object literals that nothing refers to once the
    handler returns (a partial settings object, the object an updater
    returns) are not given a place in the heap. *)
Record AppState := mkAppState {
  heap : Js.heap;
  pluginStates : loc;
  midiMappings : gmap string MidiMapping;
  midiLearnTarget : option MidiMapping;
  sidechainLinks : list SidechainLink;
  presets : list Preset
}.

Definition set_pluginStates (h : Js.heap) (l : loc) (s : AppState) : AppState :=
  mkAppState h l (midiMappings s) (midiLearnTarget s) (sidechainLinks s) (presets s).

Definition set_midiMappings (m : gmap string MidiMapping) (s : AppState) : AppState :=
  mkAppState (heap s) (pluginStates s) m (midiLearnTarget s) (sidechainLinks s) (presets s).

Definition set_midiLearnTarget (t : option MidiMapping) (s : AppState) : AppState :=
  mkAppState (heap s) (pluginStates s) (midiMappings s) t (sidechainLinks s) (presets s).

Definition set_sidechainLinks (l : list SidechainLink) (s : AppState) : AppState :=
  mkAppState (heap s) (pluginStates s) (midiMappings s) (midiLearnTarget s) l (presets s).

(** The settings mapping the state refers to, and the settings of one plug-in. *)
Definition statesOf (s : AppState) : obj := spread (heap s) (VRef (pluginStates s)).
Definition settingsOf (s : AppState) (k : PluginKey) : obj :=
  spread (heap s) (get (statesOf s) k).

(** The second argument of [handlePluginStateChange]: a partial settings
    object, or a function of the current settings (which it may read through
    the heap) that returns one. *)
Inductive StateUpdate :=
| Partial (p : obj)
| Updater (f : Js.heap → Js.value → obj).

(** [handlePluginStateChange] (lines 77-99): both object literals allocate;
    nothing that exists is written to. *)
Definition handlePluginStateChange (pluginId : PluginKey) (newState : StateUpdate)
    (s : AppState) : AppState :=
  let prevStates := statesOf s in
  let currentPluginState := get prevStates pluginId in
  let updatedPartialState :=
    match newState with
    | Updater f => f (heap s) currentPluginState
    | Partial p => p
    end in
  let '(h1, inner) :=
    alloc (heap s) (merge (spread (heap s) currentPluginState) updatedPartialState) in
  let '(h2, outer) := alloc h1 (<[pluginId := VRef inner]> prevStates) in
  set_pluginStates h2 outer s.

(** The template literal [`${deviceId}-${cc}`]. *)
Definition mappingKey (deviceId : string) (controller : N) : string :=
  deviceId +:+ ("-" +:+ pretty controller).

(** [min + (value / 127) * (max - min)] *)
Definition scaledValue (m : MidiMapping) (v : N) : Q :=
  (min m + (inject_Z (Z.of_N v) / 127) * (max m - min m))%Q.

Section Handlers.

(** [isControlChange] is defined in ./lib/midi and
    [findPlugin(k).canBeSidechainTarget] in ./constants, outside the files
    modelled here: the handlers take them as parameters. *)
Variable isControlChange : MIDIMessageEvent → bool.
Variable canBeSidechainTarget : PluginKey → bool.

(** [handleMidiMessage] (lines 112-141). *)
Definition handleMidiMessage (message : MIDIMessageEvent) (s : AppState)
    : AppState * list TelemetryEvent :=
  if negb (isControlChange message) then (s, [])
  else
    match target message with
    | None => (s, [])
    | Some deviceId =>
        let key := mappingKey deviceId (cc message) in
        match midiLearnTarget s with
        | Some t =>
            let newMapping := mkMidiMapping (pluginKey t) (paramName t) (min t) (max t) in
            (set_midiLearnTarget None (set_midiMappings (<[key := newMapping]> (midiMappings s)) s),
             [midi_mapped deviceId (cc message) newMapping])
        | None =>
            match midiMappings s !! key with
            | Some mapping =>
                (handlePluginStateChange (pluginKey mapping)
                   (Updater (λ h prevState,
                      <[paramName mapping := VNumber (scaledValue mapping (value message))]>
                        (spread h prevState)))
                   s, [])
            | None => (s, [])
            end
        end
    end.

(** [handleMidiLearnStart] (lines 148-156). *)
Definition handleMidiLearnStart (k : PluginKey) (p : string) (lo hi : Q) (s : AppState)
    : AppState * list TelemetryEvent :=
  match midiLearnTarget s with
  | Some prev =>
      if String.eqb (pluginKey prev) k && String.eqb (paramName prev) p
      then (set_midiLearnTarget None s, [])
      else (set_midiLearnTarget (Some (mkMidiMapping k p lo hi)) s, [midi_learn_started k p])
  | None => (set_midiLearnTarget (Some (mkMidiMapping k p lo hi)) s, [midi_learn_started k p])
  end.

(** [handleLoadPreset] (lines 172-178). *)
Definition handleLoadPreset (n : string) (s : AppState) : AppState * list TelemetryEvent :=
  match List.find (λ p, String.eqb (name p) n) (presets s) with
  | Some preset => (set_pluginStates (heap s) (states preset) s, [preset_loaded n])
  | None => (s, [])
  end.

(** [handleAddLink] (lines 187-193). *)
Definition handleAddLink (newLink : SidechainLink) (s : AppState)
    : AppState * list TelemetryEvent :=
  if existsb (λ link, String.eqb (to link) (to newLink)) (sidechainLinks s)
  then (s, [])
  else (set_sidechainLinks (sidechainLinks s ++ [newLink]) s, [sidechain_linked newLink]).

(** [handleRemoveLink] (lines 195-203). *)
Definition handleRemoveLink (linkToRemove : SidechainLink) (s : AppState)
    : AppState * list TelemetryEvent :=
  let s1 :=
    set_sidechainLinks
      (List.filter
         (λ link, negb (String.eqb (from link) (from linkToRemove)
                        && String.eqb (to link) (to linkToRemove)))
         (sidechainLinks s)) s in
  let targetPluginKey := to linkToRemove in
  (if canBeSidechainTarget targetPluginKey
   then handlePluginStateChange targetPluginKey
          (Partial {[ "sidechainActive" := VBool false ]}) s1
   else s1,
   [sidechain_unlinked linkToRemove]).

End Handlers.

(** *** Vocabulary of the statements about [App] *)

(** The reference a settings mapping holds for plug-in [B] points into the
    heap. *)
Definition allocated (s : AppState) (B : PluginKey) : Prop :=
  ∀ l, get (statesOf s) B = VRef l → is_Some (heap s !! l).

(** The partial settings an update comes down to in state [s]. *)
Definition partialOf (A : PluginKey) (u : StateUpdate) (s : AppState) : obj :=
  match u with
  | Partial p => p
  | Updater f => f (heap s) (get (statesOf s) A)
  end.

Definition updateAll (A : PluginKey) (us : list StateUpdate) (s : AppState) : AppState :=
  fold_left (λ s u, handlePluginStateChange A u s) us s.

(** The two allocations of [handlePluginStateChange], named. *)
Definition innerAlloc (A : PluginKey) (u : StateUpdate) (s : AppState) : Js.heap * loc :=
  alloc (heap s) (merge (settingsOf s A) (partialOf A u s)).
Definition outerAlloc (A : PluginKey) (u : StateUpdate) (s : AppState) : Js.heap * loc :=
  alloc (innerAlloc A u s).1 (<[A := VRef (innerAlloc A u s).2]> (statesOf s)).

(** Whether a string holds the separator of [mappingKey]. *)
Fixpoint hasDash (s : string) : bool :=
  match s with
  | EmptyString => false
  | String a s' => Ascii.eqb a "-"%char || hasDash s'
  end.

(** A run of the sidechain routing operations. *)
Inductive LinkOp :=
| AddLink (l : SidechainLink)
| RemoveLink (l : SidechainLink).

(** How many links target [t]. *)
Definition linksTo (t : PluginKey) (links : list SidechainLink) : nat :=
  length (List.filter (λ link, String.eqb (to link) t) links).

Definition oneSourcePerTarget (links : list SidechainLink) : Prop :=
  ∀ t, linksTo t links ≤ 1.

(** [link] is one of [links], as [handleRemoveLink] compares them. *)
Definition hasLink (link : SidechainLink) (links : list SidechainLink) : bool :=
  existsb (λ l, String.eqb (from l) (from link) && String.eqb (to l) (to link)) links.

Definition hasLinkTo (t : PluginKey) (links : list SidechainLink) : bool :=
  existsb (λ link, String.eqb (to link) t) links.

Section Runs.
Variable canBeSidechainTarget : PluginKey → bool.

Definition applyLinkOp (s : AppState) (op : LinkOp) : AppState :=
  match op with
  | AddLink l => (handleAddLink l s).1
  | RemoveLink l => (handleRemoveLink canBeSidechainTarget l s).1
  end.

Definition runLinkOps (ops : list LinkOp) (s : AppState) : AppState :=
  fold_left applyLinkOp ops s.

End Runs.

(** *** A small session used to instantiate the statements *)

Module Examples.
Import Js.

Definition isControlChange (m : MIDIMessageEvent) : bool :=
  N.eqb (N.land (status m) 240%N) 176%N.

Definition canBeSidechainTarget (k : PluginKey) : bool := String.eqb k "comp".

Definition reverb : obj :=
  {[ "size" := VNumber 50; "predelay" := VNumber 20; "mix" := VNumber 10;
     "output" := VNumber 80 ]}.
Definition comp : obj :=
  {[ "threshold" := VNumber (-20); "sidechainActive" := VBool true ]}.

Definition session : AppState :=
  mkAppState
    (<[3%positive := comp]>
       (<[2%positive := reverb]>
          {[ 1%positive := {[ "reverb" := VRef 2%positive; "comp" := VRef 3%positive ]} ]}))
    1%positive
    {[ mappingKey "dev1" 10%N := mkMidiMapping "reverb" "mix" 0 100 ]}
    None [] [].

Definition armed : AppState :=
  set_midiLearnTarget (Some (mkMidiMapping "reverb" "size" 0 100)) session.

Definition message (controller v : N) : MIDIMessageEvent :=
  mkMIDIMessageEvent 176%N controller v (Some "dev1"%string).

End Examples.

End App.

(** ** src/src/components/plugins/MixxVerb.tsx: the visualizer bridge *)

Module MixxVerb.

Local Open Scope Q_scope.

Definition Qltb (a b : Q) : bool := negb (Qle_bool b a).

(** [Math.round]: the nearest integer, halves rounded up. *)
Definition round (q : Q) : Z := Qfloor (q + 0.5).

(** Modelled from the spec: [mapRange] of ./lib/utils, which is outside
    the files modelled here: the linear map of the input range onto the
    output range, "the documented range mapping 0-100 → 1.0-0.25". *)
Definition mapRange (v inMin inMax outMin outMax : Q) : Q :=
  (v - inMin) * (outMax - outMin) / (inMax - inMin) + outMin.

Module Settings.
Record t := mk { size : Q; predelay : Q; mix : Q; output : Q }.
End Settings.

Module Particle.
(** [color] holds the hue [h] of the string [hsla(h, 100%, 60%, 1)]. *)
Record t := mk {
  id : Z;
  x : Q;
  y : Q;
  z : Q;
  opacity : Q;
  size : Q;
  spawnTime : Q;
  life : Q;
  color : Q
}.
End Particle.

Record AudioSignal := mkAudioSignal { time : Q; transients : bool }.

Record GlobalSettings := mkGlobalSettings {
  animationIntensity : Q;
  visualizerComplexity : string
}.

Record VerbVisualizerData := mkVerbVisualizerData {
  vd_particles : list Particle.t;
  vd_isPulsing : bool
}.

(** The two closures the bridge hands to [setTimeout], with what each one
    captured: the pulse reset, and the particle burst. *)
Inductive Callback :=
| PulseOff
| Burst (normalizedMix : Q) (globalSettings : GlobalSettings) (size now baseHue : Q).

(** A pending timer. Handles are positive integers, hence truthy. *)
Record Timer := mkTimer { handle : positive; delay : Q; callback : Callback }.

(** The private fields of [MixxVerbVstBridge] and [settings] of its base
    class, together with the part of the host they act on: the pending
    timers, the next timer handle and the number of [Math.random] calls made
    so far. *)
Record State := mkState {
  settings : Settings.t;
  particles : list Particle.t;
  particleIdCounter : Z;
  isPulsing : bool;
  pulseTimeout : option positive;
  lastTransientTime : Q;
  timers : list Timer;
  nextHandle : positive;
  randomCalls : nat
}.

(** [new MixxVerbVstBridge(initialSettings)] in a host with no timer pending. *)
Definition init (initialSettings : Settings.t) : State :=
  mkState initialSettings [] 0 false None 0 [] 1 0.

Definition setTimeout (cb : Callback) (ms : Q) (w : State) : State * positive :=
  (mkState (settings w) (particles w) (particleIdCounter w) (isPulsing w) (pulseTimeout w)
     (lastTransientTime w) (timers w ++ [mkTimer (nextHandle w) ms cb])
     (Pos.succ (nextHandle w)) (randomCalls w),
   nextHandle w).

Definition clearTimeout (h : positive) (w : State) : State :=
  mkState (settings w) (particles w) (particleIdCounter w) (isPulsing w) (pulseTimeout w)
    (lastTransientTime w) (List.filter (λ t, negb (Pos.eqb (handle t) h)) (timers w))
    (nextHandle w) (randomCalls w).

Definition set_isPulsing (b : bool) (w : State) : State :=
  mkState (settings w) (particles w) (particleIdCounter w) b (pulseTimeout w)
    (lastTransientTime w) (timers w) (nextHandle w) (randomCalls w).

Definition set_pulseTimeout (h : option positive) (w : State) : State :=
  mkState (settings w) (particles w) (particleIdCounter w) (isPulsing w) h
    (lastTransientTime w) (timers w) (nextHandle w) (randomCalls w).

Definition set_lastTransientTime (t : Q) (w : State) : State :=
  mkState (settings w) (particles w) (particleIdCounter w) (isPulsing w) (pulseTimeout w)
    t (timers w) (nextHandle w) (randomCalls w).

Definition set_particles (ps : list Particle.t) (c : Z) (r : nat) (w : State) : State :=
  mkState (settings w) ps c (isPulsing w) (pulseTimeout w)
    (lastTransientTime w) (timers w) (nextHandle w) r.

(** Modelled from the spec: the owner of the bridge (VstBridge and
    useVstBridge of ./vst, outside the files modelled here) keeps its
    [settings] field in step with the parameter store. *)
Definition setSettings (s : Settings.t) (w : State) : State :=
  mkState s (particles w) (particleIdCounter w) (isPulsing w) (pulseTimeout w)
    (lastTransientTime w) (timers w) (nextHandle w) (randomCalls w).

(** [moodHueMap[mood] || 195], with [mood = extraData?.mood || 'Neutral']. *)
Definition moodHueMap : list (string * Q) :=
  [("Warm", 40); ("Bright", 190); ("Dark", 270); ("Energetic", 320); ("Neutral", 195)]%string.

Definition baseHueOf (extraMood : option string) : Q :=
  let mood := match extraMood with
              | Some m => if String.eqb m "" then "Neutral"%string else m
              | None => "Neutral"%string
              end in
  match List.find (λ e, String.eqb (fst e) mood) moodHueMap with
  | Some e => snd e
  | None => 195
  end.

Definition isLow (g : GlobalSettings) : bool := String.eqb (visualizerComplexity g) "low".

(** The burst size computed inside the delayed callback (line 72). *)
Definition particleCount (normalizedMix : Q) (g : GlobalSettings) : Z :=
  ((if isLow g then 10 else 20)
   + round (normalizedMix * (if isLow g then 30 else 60)))%Z.

Section Bridge.

(** [Math.random]: its [n]-th call returns [random n]. *)
Variable random : nat → Q.

(** The body of [Array.from({ length }).map(() => ...)] (lines 73-87): the
    particles are made one after the other, [c] counts the ids handed out and
    [r] the calls of [Math.random]. *)
Fixpoint spawn (n : nat) (size now baseHue : Q) (c : Z) (r : nat)
    : list Particle.t * Z * nat :=
  match n with
  | O => ([], c, r)
  | S n' =>
      let c1 := (c + 1)%Z in
      let variation := random r * 60 - 30 in
      let p := Particle.mk c1
                 ((random (r + 1) - 0.5) * 0.1)
                 ((random (r + 2) - 0.5) * 0.1)
                 0
                 (0.5 + random (r + 3) * 0.5)
                 (1 + random (r + 4) * 3)
                 now
                 (0.5 + (size / 100) * 1.5)
                 (baseHue + variation) in
      let '(ps, c', r') := spawn n' size now baseHue c1 (r + 5)%nat in
      (p :: ps, c', r')
  end.

(** The delayed burst (lines 71-91): push the new particles, then cut the
    front of the list down to 300. *)
Definition runBurst (normalizedMix : Q) (g : GlobalSettings) (size now baseHue : Q)
    (w : State) : State :=
  let '(newParticles, c, r) :=
    spawn (Z.to_nat (particleCount normalizedMix g)) size now baseHue
      (particleIdCounter w) (randomCalls w) in
  let pushed := particles w ++ newParticles in
  let capped := if (300 <? length pushed)%nat
                then drop (length pushed - 300) pushed
                else pushed in
  set_particles capped c r w.

Definition runCallback (cb : Callback) (w : State) : State :=
  match cb with
  | PulseOff => set_isPulsing false w
  | Burst nm g size now hue => runBurst nm g size now hue w
  end.

(** The host runs the callback of a pending timer, once. *)
Definition fire (h : positive) (w : State) : State :=
  match List.find (λ t, Pos.eqb (handle t) h) (timers w) with
  | Some t => runCallback (callback t) (clearTimeout h w)
  | None => w
  end.

(** The per-frame update of the particles (lines 96-105). Where
    [p.life] is 0 the quotient is 0 here and infinite or NaN in JavaScript;
    for [Math.random] in [0, 1) the filter below gives the same verdict on
    the particle in both. *)
Fixpoint advance (depthSpeed : Q) (ps : list Particle.t) (r : nat)
    : list Particle.t * nat :=
  match ps with
  | [] => ([], r)
  | p :: ps' =>
      let newZ := Particle.z p + depthSpeed in
      let lifeLeft := 1 - newZ / Particle.life p in
      let p' := Particle.mk (Particle.id p)
                  (Particle.x p + (random r - 0.5) * 0.01)
                  (Particle.y p + (random (r + 1) - 0.5) * 0.01)
                  newZ
                  ((0.5 + random (r + 2) * 0.5) * lifeLeft)
                  (Particle.size p) (Particle.spawnTime p) (Particle.life p)
                  (Particle.color p) in
      let '(rest, r') := advance depthSpeed ps' (r + 3)%nat in
      (p' :: rest, r')
  end.

(** The filter of line 106. *)
Definition alive (p : Particle.t) : bool :=
  Qltb (Particle.z p) (Particle.life p) && Qltb 0.01 (Particle.opacity p).

Definition depthSpeedOf (g : GlobalSettings) : Q :=
  0.005 * mapRange (animationIntensity g) 0 100 1 0.25.

(** The transient branch (lines 62-93). *)
Definition onTransient (g : GlobalSettings) (now baseHue : Q) (w : State) : State :=
  let w := set_lastTransientTime now w in
  let normalizedMix := Settings.mix (settings w) / 100 in
  if Qltb 0.01 normalizedMix then
    let w := set_isPulsing true w in
    let w := match pulseTimeout w with
             | Some h => clearTimeout h w
             | None => w
             end in
    let '(w, h) := setTimeout PulseOff 100 w in
    let w := set_pulseTimeout (Some h) w in
    fst (setTimeout
           (Burst normalizedMix g (Settings.size (settings w)) now baseHue)
           (Settings.predelay (settings w)) w)
  else w.

(** The gate of line 62. *)
Definition transientObserved (a : AudioSignal) (w : State) : bool :=
  transients a && Qltb (lastTransientTime w + 0.1) (time a).

(** [dspProcess] (lines 41-112). *)
Definition dspProcess (audioSignal : AudioSignal) (width height : Q)
    (globalSettings : GlobalSettings) (extraMood : option string) (w : State)
    : State * VerbVisualizerData :=
  let now := time audioSignal in
  let depthSpeed := depthSpeedOf globalSettings in
  let baseHue := baseHueOf extraMood in
  let w := if transientObserved audioSignal w
           then onTransient globalSettings now baseHue w
           else w in
  let '(moved, r) := advance depthSpeed (particles w) (randomCalls w) in
  let w := set_particles (List.filter alive moved) (particleIdCounter w) r w in
  (w, mkVerbVisualizerData (particles w) (isPulsing w)).

(** What can happen to a bridge: a frame, a timer that elapses, a change of
    its settings. The host decides when a delay has elapsed: any pending
    timer may elapse between two frames, in any order. *)
Inductive Event :=
| Frame (audioSignal : AudioSignal) (width height : Q)
    (globalSettings : GlobalSettings) (extraMood : option string)
| Elapsed (h : positive)
| SettingsChanged (s : Settings.t).

Definition step (w : State) (e : Event) : State :=
  match e with
  | Frame a wd ht g m => fst (dspProcess a wd ht g m w)
  | Elapsed h => fire h w
  | SettingsChanged s => setSettings s w
  end.

Definition run (es : list Event) (w : State) : State := fold_left step es w.

(** *** Vocabulary of the statements about the bridge *)

(** The particles a burst pushes when it runs in state [w]. *)
Definition burstParticles (normalizedMix : Q) (g : GlobalSettings) (size now baseHue : Q)
    (w : State) : list Particle.t :=
  (spawn (Z.to_nat (particleCount normalizedMix g)) size now baseHue
     (particleIdCounter w) (randomCalls w)).1.1.

(** The timers a transient leaves pending of those that were: all but the
    pulse reset recorded in [pulseTimeout]. *)
Definition keptTimers (w : State) : list Timer :=
  match pulseTimeout w with
  | Some h => List.filter (λ t, negb (Pos.eqb (handle t) h)) (timers w)
  | None => timers w
  end.

Definition isBurst (t : Timer) : bool :=
  match callback t with
  | Burst _ _ _ _ _ => true
  | PulseOff => false
  end.

Definition isFrame (e : Event) : bool :=
  match e with
  | Frame _ _ _ _ _ => true
  | _ => false
  end.

Definition frames (es : list Event) : nat := length (List.filter isFrame es).

(** A frame without a transient, drawn with an animation intensity in
    range; the other events are not constrained. *)
Definition quietFrame (e : Event) : Prop :=
  match e with
  | Frame a _ _ g _ =>
      transients a = false ∧ 0 <= animationIntensity g ∧ animationIntensity g <= 100
  | _ => True
  end.

Definition Qnat (k : nat) : Q := inject_Z (Z.of_nat k).

Definition noBurstPending (w : State) : Prop :=
  Forall (λ t, callback t = PulseOff) (timers w).

(** What holds of the timers in every state a bridge can reach: handles are
    handed out in increasing order, and the handle kept in [pulseTimeout]
    is that of a pulse reset. *)
Record timersWf (w : State) : Prop := mkTimersWf {
  wf_below : Forall (λ t, (handle t < nextHandle w)%positive) (timers w);
  wf_nodup : NoDup (handle <$> timers w);
  wf_pulse : ∀ t, t ∈ timers w → pulseTimeout w = Some (handle t) →
             callback t = PulseOff
}.

End Bridge.

(** *** A bridge used to instantiate the statements *)

Module Examples.

Definition random (n : nat) : Q := 0.5.

Definition low : GlobalSettings := mkGlobalSettings 50 "low".

Definition verb (mix : Q) : Settings.t := Settings.mk 50 150 mix 80.

Definition transient (now : Q) : Event :=
  Frame (mkAudioSignal now true) 640 480 low (Some "Warm"%string).

Definition silence (now : Q) : Event :=
  Frame (mkAudioSignal now false) 640 480 low (Some "Warm"%string).

(** The burst that the transient at time 1 schedules with mix = 50. *)
Definition firstBurst : Timer :=
  mkTimer 2 150 (Burst (50 / 100) low 50 1 (baseHueOf (Some "Warm"%string))).

(** What is pending: the handle of each timer, and whether it is a burst. *)
Definition pending (w : State) : list (positive * bool) :=
  List.map (λ t, (handle t, isBurst t)) (timers w).

End Examples.

End MixxVerb.

(** ** src/App.tsx: what the shell hands to the active plug-in, and runs
       of its handlers *)

Module Shell.
Import Js App.

(** The props [renderActivePlugin] (lines 213-252) builds for the plug-in
    [activePlugin]. *)
Definition isLearning (activePlugin : PluginKey) (s : AppState) (p : string) : bool :=
  match midiLearnTarget s with
  | Some t => String.eqb (pluginKey t) activePlugin && String.eqb (paramName t) p
  | None => false
  end.

Definition onMidiLearn (activePlugin : PluginKey) (p : string) (lo hi : Q) (s : AppState)
    : AppState * list TelemetryEvent :=
  handleMidiLearnStart activePlugin p lo hi s.

Definition setPluginState (activePlugin : PluginKey) (newState : StateUpdate)
    (s : AppState) : AppState :=
  handlePluginStateChange activePlugin newState s.

Definition isSidechainTarget (activePlugin : PluginKey) (s : AppState) : bool :=
  existsb (λ link, String.eqb (to link) activePlugin) (sidechainLinks s).

(** [onMidiInputChange] of the side panel (lines 375-378): the selected
    input becomes [id || null] and learn mode is left. *)
Definition onMidiInputChange (id : string) (s : AppState) : option string * AppState :=
  (if String.eqb id "" then None else Some id, set_midiLearnTarget None s).

(** The event [handleValueChange] of the MixxVerb panel sends. *)
Inductive PanelEvent :=
| parameter_change (plugin parameter : string) (v : Q).

(** [handleValueChange] of the MixxVerb panel (MixxVerb.tsx lines 193-196),
    whose [setPluginState] is the prop above. *)
Definition handleValueChange (activePlugin : PluginKey) (param : string) (v : Q)
    (s : AppState) : AppState * list PanelEvent :=
  (setPluginState activePlugin
     (Updater (λ h prevState, <[param := VNumber v]> (spread h prevState))) s,
   [parameter_change "mixx-verb" param v]).

(** What the user and the MIDI port can do to a session. *)
Inductive Action :=
| DoStateChange (k : PluginKey) (u : StateUpdate)
| DoValueChange (k : PluginKey) (param : string) (v : Q)
| DoMidiMessage (m : MIDIMessageEvent)
| DoMidiLearnStart (k : PluginKey) (p : string) (lo hi : Q)
| DoMidiInputChange (id : string)
| DoLoadPreset (n : string)
| DoAddLink (l : SidechainLink)
| DoRemoveLink (l : SidechainLink).

Section Runs.
Variable isControlChange : MIDIMessageEvent → bool.
Variable canBeSidechainTarget : PluginKey → bool.

Definition dispatch (s : AppState) (a : Action) : AppState :=
  match a with
  | DoStateChange k u => handlePluginStateChange k u s
  | DoValueChange k param v => (handleValueChange k param v s).1
  | DoMidiMessage m => (handleMidiMessage isControlChange m s).1
  | DoMidiLearnStart k p lo hi => (handleMidiLearnStart k p lo hi s).1
  | DoMidiInputChange id => (onMidiInputChange id s).2
  | DoLoadPreset n => (handleLoadPreset n s).1
  | DoAddLink l => (handleAddLink l s).1
  | DoRemoveLink l => (handleRemoveLink canBeSidechainTarget l s).1
  end.

Definition runActions (acts : list Action) (s : AppState) : AppState :=
  fold_left dispatch acts s.

End Runs.

(** The mapping a state refers to is an object of its heap, and so is every
    settings object the mapping refers to. *)
Definition closed (s : AppState) : Prop :=
  is_Some (heap s !! pluginStates s) ∧ ∀ k, allocated s k.

(** *** Saving and deleting presets *)

Definition set_presets (ps : list Preset) (s : AppState) : AppState :=
  mkAppState (heap s) (pluginStates s) (midiMappings s) (midiLearnTarget s)
    (sidechainLinks s) ps.

(** Modelled from the spec: [savePreset] of the hook usePresets
    (./hooks/usePresets is not among the files modelled here). Presets are
    keyed by their unique name: saving under a name that exists overwrites
    that preset, under a new name it adds one. *)
Definition savePreset (n : string) (saved : loc) (ps : list Preset) : list Preset :=
  List.filter (λ p, negb (String.eqb (name p) n)) ps ++ [mkPreset n saved].

(** Modelled from the spec: [deletePreset] of the hook usePresets; the
    preset of that name is destroyed. *)
Definition deletePreset (n : string) (ps : list Preset) : list Preset :=
  List.filter (λ p, negb (String.eqb (name p) n)) ps.

(** Events the two handlers below send. *)
Inductive PresetEvent :=
| preset_saved (n : string)
| preset_deleted (n : string).

(** [handleSavePreset] (lines 158-170). [answer] is what [window.prompt]
    returns, [confirmed] what [window.confirm] answers when it is asked.
    What is saved is the reference of the current settings mapping. *)
Definition handleSavePreset (answer : option string) (confirmed : bool) (s : AppState)
    : AppState * list PresetEvent :=
  match answer with
  | Some n =>
      if String.eqb n "" then (s, [])
      else
        let isOverwriting := existsb (λ p, String.eqb (name p) n) (presets s) in
        if isOverwriting && negb confirmed then (s, [])
        else (set_presets (savePreset n (pluginStates s) (presets s)) s, [preset_saved n])
  | None => (s, [])
  end.

(** [handleDeletePreset] (lines 180-185). *)
Definition handleDeletePreset (n : string) (confirmed : bool) (s : AppState)
    : AppState * list PresetEvent :=
  if confirmed
  then (set_presets (deletePreset n (presets s)) s, [preset_deleted n])
  else (s, []).

(** The actions above, and the two on the presets. *)
Inductive SessionAction :=
| Handler (a : Action)
| DoSavePreset (answer : option string) (confirmed : bool)
| DoDeletePreset (n : string) (confirmed : bool).

Section Sessions.
Variable isControlChange : MIDIMessageEvent → bool.
Variable canBeSidechainTarget : PluginKey → bool.

Definition dispatchSession (s : AppState) (a : SessionAction) : AppState :=
  match a with
  | Handler a => dispatch isControlChange canBeSidechainTarget s a
  | DoSavePreset answer confirmed => (handleSavePreset answer confirmed s).1
  | DoDeletePreset n confirmed => (handleDeletePreset n confirmed s).1
  end.

Definition runSession (acts : list SessionAction) (s : AppState) : AppState :=
  fold_left dispatchSession acts s.

End Sessions.

(** Whether an action is a confirmed save under the name [n] or a confirmed
    delete of it. *)
Definition replaces (n : string) (a : SessionAction) : bool :=
  match a with
  | Handler _ => false
  | DoSavePreset (Some m) confirmed => String.eqb m n && confirmed
  | DoSavePreset None _ => false
  | DoDeletePreset m confirmed => String.eqb m n && confirmed
  end.

Definition hasPreset (n : string) (s : AppState) : bool :=
  existsb (λ p, String.eqb (name p) n) (presets s).

(** *** Messages used to instantiate the statements *)

Module Demo.

Definition noteOn : MIDIMessageEvent := mkMIDIMessageEvent 144%N 60%N 100%N (Some "dev1"%string).

End Demo.

End Shell.

(** ** src/src/components/plugins/MixxVerb.tsx: what the bridge keeps, and
       the view that draws its particles *)

Module BridgeInvariants.
Import MixxVerb.

Local Open Scope Q_scope.

(** Each number of the list is above the one before it, the first above
    [lo]. *)
Fixpoint ascending (lo : Z) (ids : list Z) : Prop :=
  match ids with
  | [] => True
  | i :: rest => (lo < i)%Z ∧ ascending i rest
  end.

(** The ids of the particles are positive and grow along the list, and
    none is above the counter. *)
Definition idsAscending (w : State) : Prop :=
  (0 ≤ particleIdCounter w)%Z
  ∧ ascending 0 (Particle.id <$> particles w)
  ∧ Forall (λ p, (Particle.id p ≤ particleIdCounter w)%Z) (particles w).

(** Every pulse reset that is pending is the one [pulseTimeout] holds, and
    the pulse is on only while a reset is pending. *)
Definition pulseWf (w : State) : Prop :=
  (∀ t, t ∈ timers w → callback t = PulseOff → pulseTimeout w = Some (handle t))
  ∧ (isPulsing w = true → ∃ t, t ∈ timers w ∧ callback t = PulseOff).

(** The signal times of the transients whose bursts are pending, oldest
    first. *)
Fixpoint burstTimes (ts : list Timer) : list Q :=
  match ts with
  | [] => []
  | t :: ts' =>
      match callback t with
      | Burst _ _ _ now _ => now :: burstTimes ts'
      | PulseOff => burstTimes ts'
      end
  end.

(** Each time of the list is more than 0.1 after every earlier one. *)
Fixpoint spaced (times : list Q) : Prop :=
  match times with
  | [] => True
  | a :: rest => Forall (λ b, a + 0.1 < b) rest ∧ spaced rest
  end.

Definition rateLimited (w : State) : Prop :=
  spaced (burstTimes (timers w))
  ∧ Forall (λ a, a <= lastTransientTime w) (burstTimes (timers w)).

(** Every burst that is pending was scheduled with a normalized mix above
    the threshold. *)
Definition burstsAboveGate (w : State) : Prop :=
  ∀ t nm g size now hue,
    t ∈ timers w → callback t = Burst nm g size now hue → 0.01 < nm.

(** A frame drawn with an animation intensity between 0 and 100; the other
    events are not constrained. *)
Definition intensityInRange (e : Event) : Prop :=
  match e with
  | Frame _ _ _ g _ => 0 <= animationIntensity g ∧ animationIntensity g <= 100
  | _ => True
  end.

(** [Math.random] returns numbers from 0 up to, and not including, 1. *)
Definition unitRandom (random : nat → Q) : Prop :=
  ∀ n, 0 <= random n ∧ random n < 1.

End BridgeInvariants.

(** [ReverbSpaceVisualizer] (MixxVerb.tsx lines 117-177): where and how
    large a particle is drawn. *)
Module ReverbSpaceVisualizer.
Import MixxVerb.

Local Open Scope Q_scope.

Definition perspective : Q := 500.

(** [visualizerData?.particles ?? []] and [visualizerData?.isPulsing ?? false]. *)
Definition particlesOf (visualizerData : option VerbVisualizerData) : list Particle.t :=
  match visualizerData with
  | Some d => vd_particles d
  | None => []
  end.

Definition isPulsingOf (visualizerData : option VerbVisualizerData) : bool :=
  match visualizerData with
  | Some d => vd_isPulsing d
  | None => false
  end.

Definition zPos (p : Particle.t) : Q := Particle.z p * (perspective * 0.7).

Definition scale (p : Particle.t) : Q := 1 / (1 + zPos p / perspective).

(** [width] and [height] of the dot, and the three translations of its
    [transform]. *)
Definition width (p : Particle.t) : Q := Particle.size p * scale p.
Definition height (p : Particle.t) : Q := Particle.size p * scale p.
Definition translateX (p : Particle.t) : Q := Particle.x p * perspective.
Definition translateY (p : Particle.t) : Q := Particle.y p * perspective.
Definition translateZ (p : Particle.t) : Q := - zPos p.

End ReverbSpaceVisualizer.

(** ** src/unnamed/part_000: the tilt of [PluginContainer] *)

Module PluginContainer.

Local Open Scope Q_scope.

(** What [getBoundingClientRect] returns, and the part of a mouse event
    the handler reads. *)
Record DOMRect := mkDOMRect { left : Q; top : Q; width : Q; height : Q }.

Record MouseEvent := mkMouseEvent { clientX : Q; clientY : Q; rect : DOMRect }.

(** The values last set on the motion values [x], [y] and [scale]. *)
Record Motion := mkMotion { x : Q; y : Q; scale : Q }.

(** [x.set(0); y.set(0); scale.set(1)] *)
Definition rest : Motion := mkMotion 0 0 1.

(** [handleMouseMove] (lines 31-54). For an element of width or height 0
    the quotient is 0 here and infinite or NaN in JavaScript. *)
Definition handleMouseMove (isDragging isResizing : bool) (e : MouseEvent) (m : Motion)
    : Motion :=
  if isDragging || isResizing then rest
  else
    let mouseXPos := clientX e - left (rect e) in
    let mouseYPos := clientY e - top (rect e) in
    let xPct := mouseXPos / width (rect e) - 0.5 in
    let yPct := mouseYPos / height (rect e) - 0.5 in
    mkMotion xPct yPct 1.01.

(** [handleMouseLeave] (lines 56-60). *)
Definition handleMouseLeave (m : Motion) : Motion := rest.

(** The effect of lines 63-69, run when [isDragging] or [isResizing]
    changes. *)
Definition onInteractionChange (isDragging isResizing : bool) (m : Motion) : Motion :=
  if isDragging || isResizing then rest else m.

(** The pointer is over the element. *)
Definition inside (e : MouseEvent) : Prop :=
  left (rect e) <= clientX e ∧ clientX e <= left (rect e) + width (rect e)
  ∧ top (rect e) <= clientY e ∧ clientY e <= top (rect e) + height (rect e).

End PluginContainer.

(** ** src/App.tsx: [AIAudioPlayer] (lines 397-504) *)

Module AIAudioPlayer.

(** The state of the component. *)
Record State := mkState { prompt : string; isLoading : bool; showInput : bool }.

(** The props the component calls, and [console.error]. *)
Inductive Call :=
| onStop
| onAudioReady (base64Audio : string)
| onPlay
| onPause
| consoleError.

(** How the awaited request ends: a response, with the audio payload
    [response.candidates?.[0]?.content?.parts?.[0]?.inlineData?.data] when
    it has one, or an exception. *)
Inductive Outcome :=
| Response (data : option string)
| Thrown.

(** The component, the number of generations that are past the guard of
    [handleGenerate] and have not reached its [finally], and the calls made
    so far, latest first. The handlers read the state of the render that
    made them, which React makes anew after every change of state: each
    handler here reads the current state. *)
Record World := mkWorld { ui : State; inFlight : nat; calls : list Call }.

Definition init : World :=
  mkWorld (mkState "System online. Ready for input." false false) 0 [].

Inductive Event :=
| KeyDown (key : string)
| ClickGo
| ClickOpen
| Change (text : string)
| ClickPlayPause (isPlaying : bool)
| Settled (o : Outcome).

Section Player.

(** [String.prototype.trim] of the host. *)
Variable trim : string → string.

(** [handleGenerate] up to its [await] (lines 421-428). *)
Definition handleGenerate (w : World) : World :=
  if String.eqb (trim (prompt (ui w))) "" || isLoading (ui w) then w
  else
    mkWorld (mkState (prompt (ui w)) true (showInput (ui w)))
      (S (inFlight w)) (onStop :: calls w).

(** [handleGenerate] from its [await] on (lines 441-450). *)
Definition settle (o : Outcome) (w : World) : World :=
  match inFlight w with
  | O => w
  | S n =>
      match o with
      | Response (Some base64Audio) =>
          if String.eqb base64Audio ""
          then mkWorld (mkState (prompt (ui w)) false (showInput (ui w))) n (calls w)
          else mkWorld (mkState (prompt (ui w)) false false) n
                 (onAudioReady base64Audio :: calls w)
      | Response None =>
          mkWorld (mkState (prompt (ui w)) false (showInput (ui w))) n (calls w)
      | Thrown =>
          mkWorld (mkState (prompt (ui w)) false (showInput (ui w))) n
            (consoleError :: calls w)
      end
  end.

(** [handleKeyDown] (lines 453-459). *)
Definition handleKeyDown (key : string) (w : World) : World :=
  if String.eqb key "Enter" then handleGenerate w
  else if String.eqb key "Escape"
       then mkWorld (mkState (prompt (ui w)) (isLoading (ui w)) false)
              (inFlight w) (calls w)
       else w.

Definition step (w : World) (e : Event) : World :=
  match e with
  | KeyDown key => handleKeyDown key w
  | ClickGo => handleGenerate w
  | ClickOpen =>
      mkWorld (mkState (prompt (ui w)) (isLoading (ui w)) true) (inFlight w) (calls w)
  | Change text =>
      mkWorld (mkState text (isLoading (ui w)) (showInput (ui w))) (inFlight w) (calls w)
  | ClickPlayPause isPlaying =>
      mkWorld (ui w) (inFlight w) ((if isPlaying then onPause else onPlay) :: calls w)
  | Settled o => settle o w
  end.

Definition run (es : list Event) (w : World) : World := fold_left step es w.

End Player.

Definition isStop (c : Call) : bool := match c with onStop => true | _ => false end.
Definition isAudio (c : Call) : bool :=
  match c with onAudioReady _ => true | _ => false end.

(** How many calls of a kind were made. *)
Definition count (f : Call → bool) (w : World) : nat := length (List.filter f (calls w)).

End AIAudioPlayer.

(** * Properties *)

(** ** Facts about the heap model *)

Module JsFacts.
Import Js.

#[global] Arguments alloc : simpl never.

Lemma alloc_spec (h : heap) (o : obj) :
  h !! (alloc h o).2 = None ∧ (alloc h o).1 = <[(alloc h o).2 := o]> h.
Proof.
  unfold alloc; simpl. split; [|done].
  apply not_elem_of_dom, is_fresh.
Qed.

Lemma alloc_lookup_new (h : heap) (o : obj) :
  (alloc h o).1 !! (alloc h o).2 = Some o.
Proof. unfold alloc; simpl. apply lookup_insert_eq. Qed.

Lemma alloc_lookup_old (h : heap) (o o' : obj) (l : loc) :
  h !! l = Some o' → (alloc h o).1 !! l = Some o'.
Proof.
  intros Hl. destruct (alloc_spec h o) as [Hfresh ->].
  rewrite lookup_insert_ne; [done|]. intros E. rewrite E in Hfresh. congruence.
Qed.

Lemma get_insert_eq (o : obj) (k : string) (v : value) : get (<[k := v]> o) k = v.
Proof. unfold get. by rewrite lookup_insert_eq. Qed.

Lemma get_insert_ne (o : obj) (k k' : string) (v : value) :
  k ≠ k' → get (<[k := v]> o) k' = get o k'.
Proof. intros. unfold get. by rewrite lookup_insert_ne. Qed.

(** [{...o, ...{...o, [k]: v}}] is [o] with [k] set to [v]. *)
Lemma merge_insert_self (o : obj) (k : string) (v : value) :
  merge o (<[k := v]> o) = <[k := v]> o.
Proof.
  unfold merge. apply map_eq; intros i. rewrite lookup_union.
  destruct (decide (k = i)) as [->|Hne].
  - rewrite lookup_insert_eq. by destruct (o !! i).
  - rewrite lookup_insert_ne by done. by destruct (o !! i).
Qed.

End JsFacts.

(** ** The parameter store, MIDI learn and sidechain routing *)

Module AppSpec.
Import Js App JsFacts.

#[global] Arguments innerAlloc : simpl never.
#[global] Arguments outerAlloc : simpl never.

Lemma handlePluginStateChange_allocs A u s :
  handlePluginStateChange A u s
  = set_pluginStates (outerAlloc A u s).1 (outerAlloc A u s).2 s.
Proof.
  unfold outerAlloc, innerAlloc, handlePluginStateChange, settingsOf, partialOf.
  destruct u; simpl; reflexivity.
Qed.

Lemma update_heap_old A u s l o :
  heap s !! l = Some o → heap (handlePluginStateChange A u s) !! l = Some o.
Proof.
  intros Hl. rewrite handlePluginStateChange_allocs.
  cbn [heap set_pluginStates].
  by apply alloc_lookup_old, alloc_lookup_old.
Qed.

Lemma update_statesOf A u s :
  ∃ inner,
    heap s !! inner = None
    ∧ heap (handlePluginStateChange A u s) !! inner
      = Some (merge (settingsOf s A) (partialOf A u s))
    ∧ statesOf (handlePluginStateChange A u s) = <[A := VRef inner]> (statesOf s)
    ∧ heap s !! pluginStates (handlePluginStateChange A u s) = None.
Proof.
  rewrite handlePluginStateChange_allocs.
  exists (innerAlloc A u s).2. unfold statesOf at 1.
  cbn [heap pluginStates set_pluginStates spread].
  split; [apply (alloc_spec (heap s))|].
  split; [apply alloc_lookup_old, alloc_lookup_new|].
  split; [unfold outerAlloc; by rewrite alloc_lookup_new|].
  destruct (alloc_spec (innerAlloc A u s).1
              (<[A := VRef (innerAlloc A u s).2]> (statesOf s))) as [Hf _].
  fold (outerAlloc A u s) in Hf.
  destruct (heap s !! (outerAlloc A u s).2) as [o|] eqn:E; [|done].
  apply (alloc_lookup_old _ (merge (settingsOf s A) (partialOf A u s))) in E.
  fold (innerAlloc A u s) in E. congruence.
Qed.

Lemma update_settings_self A u s :
  settingsOf (handlePluginStateChange A u s) A = merge (settingsOf s A) (partialOf A u s).
Proof.
  destruct (update_statesOf A u s) as (inner & _ & Hin & Hst & _).
  unfold settingsOf at 1. rewrite Hst, get_insert_eq.
  cbn [spread]. by rewrite Hin.
Qed.

Lemma update_ref_other A B u s :
  B ≠ A → get (statesOf (handlePluginStateChange A u s)) B = get (statesOf s) B.
Proof.
  intros Hne. destruct (update_statesOf A u s) as (inner & _ & _ & Hst & _).
  rewrite Hst. by apply get_insert_ne.
Qed.

Lemma update_settings_other A B u s :
  B ≠ A → allocated s B →
  settingsOf (handlePluginStateChange A u s) B = settingsOf s B.
Proof.
  intros Hne Hal. unfold settingsOf. rewrite update_ref_other by done.
  destruct (get (statesOf s) B) eqn:E; try done. cbn [spread].
  destruct (Hal l E) as [o Ho].
  by rewrite (update_heap_old A u s l o Ho), Ho.
Qed.

Lemma update_allocated_other A B u s :
  B ≠ A → allocated s B → allocated (handlePluginStateChange A u s) B.
Proof.
  intros Hne Hal l Hl. rewrite update_ref_other in Hl by done.
  destruct (Hal l Hl) as [o Ho]. exists o. by apply update_heap_old.
Qed.

Lemma updateAll_other A B us s :
  B ≠ A → allocated s B →
  get (statesOf (updateAll A us s)) B = get (statesOf s) B
  ∧ settingsOf (updateAll A us s) B = settingsOf s B.
Proof.
  intros Hne. revert s. induction us as [|u us IH]; intros s Hal; [done|].
  simpl. destruct (IH (handlePluginStateChange A u s)) as [Hr Hs].
  { by apply update_allocated_other. }
  unfold updateAll in *. rewrite Hr, Hs.
  split; [by apply update_ref_other | by apply update_settings_other].
Qed.

(** C1. [handlePluginStateChange A u] produces a new settings mapping in
    which the settings of [A] are the shallow merge of its previous settings
    with the partial object (given, or returned by the updater): a property
    the partial object has reads as the partial object gives it, every
    other property reads as it did before, and the merged settings are a
    fresh object. For every other key [B] the new mapping holds the very
    reference the old one held and the settings behind it are the same; no
    object that existed before the call, the previous mapping included, is
    written to; the new mapping is a fresh object. The same isolation holds
    for any sequence of updates of [A]. *)
Theorem handlePluginStateChange_frame (A : PluginKey) (u : StateUpdate) (s : AppState) :
  let s' := handlePluginStateChange A u s in
  let partial := match u with
                 | Partial p => p
                 | Updater f => f (heap s) (get (statesOf s) A)
                 end in
  settingsOf s' A = merge (settingsOf s A) (partialOf A u s)
  ∧ (∀ k, settingsOf s' A !! k
          = match partial !! k with
            | Some v => Some v
            | None => settingsOf s A !! k
            end)
  ∧ (∃ inner, get (statesOf s') A = VRef inner ∧ heap s !! inner = None)
  ∧ (∀ B, B ≠ A →
       get (statesOf s') B = get (statesOf s) B
       ∧ (allocated s B → settingsOf s' B = settingsOf s B))
  ∧ (∀ l o, heap s !! l = Some o → heap s' !! l = Some o)
  ∧ heap s !! pluginStates s' = None
  ∧ (∀ B us, B ≠ A → allocated s B →
       get (statesOf (updateAll A us s)) B = get (statesOf s) B
       ∧ settingsOf (updateAll A us s) B = settingsOf s B).
Proof.
  intros s' partial. split; [apply update_settings_self|].
  split.
  { intros k. subst s'. rewrite update_settings_self. unfold merge.
    rewrite lookup_union.
    replace (partialOf A u s) with partial by (by destruct u).
    destruct (partial !! k) as [v|]; [by destruct (settingsOf s A !! k)|].
    by destruct (settingsOf s A !! k). }
  split.
  { destruct (update_statesOf A u s) as (inner & Hf & _ & Hst & _).
    exists inner. subst s'. rewrite Hst, get_insert_eq. by split. }
  split.
  { intros B Hne. split; [by apply update_ref_other|].
    intros Hal. by apply update_settings_other. }
  split; [intros l o; apply update_heap_old|].
  split.
  { by destruct (update_statesOf A u s) as (? & _ & _ & _ & ?). }
  intros B us Hne Hal. by apply updateAll_other.
Qed.

(** *** The mapping key determines the device and the controller *)

Lemma hasDash_app (a b : string) : hasDash (a +:+ b) = hasDash a || hasDash b.
Proof. induction a as [|c a IH]; simpl; [done|]. by rewrite IH, orb_assoc. Qed.

Lemma pretty_N_go_noDash (x : N) (s : string) :
  hasDash s = false → hasDash (pretty_N_go x s) = false.
Proof.
  revert s. induction (N.lt_wf_0 x) as [x _ IH]; intros s Hs.
  assert (x = 0 ∨ 0 < x)%N as [->|Hx] by lia.
  - by rewrite pretty_N_go_0.
  - rewrite pretty_N_go_step by done. apply IH.
    { by apply N.div_lt. }
    simpl. rewrite Hs. unfold pretty_N_char. by repeat case_match.
Qed.

Lemma pretty_N_noDash (x : N) : hasDash (pretty x) = false.
Proof.
  unfold pretty, pretty_N. case_decide; [done|]. by apply pretty_N_go_noDash.
Qed.

Lemma mappingKey_inj (d d' : string) (c c' : N) :
  mappingKey d c = mappingKey d' c' → d = d' ∧ c = c'.
Proof.
  unfold mappingKey. revert d'.
  induction d as [|a d IH]; intros [|a' d'] H.
  - change (String "-" (pretty c) = String "-" (pretty c')) in H.
    injection H as H. apply pretty_N_inj in H. by subst.
  - change (String "-" (pretty c) = String a' (d' +:+ ("-" +:+ pretty c'))) in H.
    injection H as <- H.
    pose proof (pretty_N_noDash c) as Hc. rewrite H, hasDash_app in Hc.
    change (hasDash ("-" +:+ pretty c')) with true in Hc.
    by rewrite orb_true_r in Hc.
  - change (String a (d +:+ ("-" +:+ pretty c)) = String "-" (pretty c')) in H.
    injection H as -> H.
    pose proof (pretty_N_noDash c') as Hc. rewrite <- H, hasDash_app in Hc.
    change (hasDash ("-" +:+ pretty c)) with true in Hc.
    by rewrite orb_true_r in Hc.
  - change (String a (d +:+ ("-" +:+ pretty c))
            = String a' (d' +:+ ("-" +:+ pretty c'))) in H.
    injection H as -> H. destruct (IH d' H) as [-> ->]. done.
Qed.

(** Two messages share a mapping key only when they come from the same
    device and move the same controller: the separator cannot occur in the
    decimal digits of the controller number. *)
Theorem mappingKey_separates (d d' : string) (c c' : N) :
  mappingKey d c = mappingKey d' c' ↔ d = d' ∧ c = c'.
Proof.
  split; [apply mappingKey_inj|]. by intros [-> ->].
Qed.

Section Spec.
Variable isControlChange : MIDIMessageEvent → bool.
Variable canBeSidechainTarget : PluginKey → bool.

(** The message is handled in the idle state with a mapping on record: the
    outcome is a parameter store update. *)
Lemma handleMidiMessage_idle_mapped message deviceId m s :
  isControlChange message = true →
  target message = Some deviceId →
  midiLearnTarget s = None →
  midiMappings s !! mappingKey deviceId (cc message) = Some m →
  handleMidiMessage isControlChange message s
  = (handlePluginStateChange (pluginKey m)
       (Updater (λ h prevState,
          <[paramName m := VNumber (scaledValue m (value message))]> (spread h prevState)))
       s, []).
Proof. intros Hcc Ht Hl Hm. unfold handleMidiMessage. by rewrite Hcc, Ht, Hl, Hm. Qed.

Lemma handleMidiMessage_idle_unmapped message deviceId s :
  isControlChange message = true →
  target message = Some deviceId →
  midiLearnTarget s = None →
  midiMappings s !! mappingKey deviceId (cc message) = None →
  handleMidiMessage isControlChange message s = (s, []).
Proof. intros Hcc Ht Hl Hm. unfold handleMidiMessage. by rewrite Hcc, Ht, Hl, Hm. Qed.

(** C2. A control-change message that arrives while no learn target is
    armed and whose key [(deviceId, cc)] has a mapping [(pluginKey,
    paramName, min, max)] sets that parameter of that plug-in to
    [min + (value / 127) * (max - min)], the other parameters of the plug-in
    and the mappings staying as they were; with the mapping (reverb, mix, 0,
    100) and value 64 the new mix is 50.4 to one decimal. With no mapping
    under the key nothing changes. *)
Theorem handleMidiMessage_applies_mapping (message : MIDIMessageEvent)
    (deviceId : string) (s : AppState) :
  isControlChange message = true →
  target message = Some deviceId →
  midiLearnTarget s = None →
  let s' := (handleMidiMessage isControlChange message s).1 in
  let key := mappingKey deviceId (cc message) in
  (∀ m, midiMappings s !! key = Some m →
     settingsOf s' (pluginKey m)
     = <[paramName m :=
           VNumber (min m + (inject_Z (Z.of_N (value message)) / 127) * (max m - min m))%Q]>
         (settingsOf s (pluginKey m))
     ∧ midiMappings s' = midiMappings s
     ∧ midiLearnTarget s' = None
     ∧ (m = mkMidiMapping "reverb" "mix" 0 100 → value message = 64%N →
        ∃ q, settingsOf s' "reverb" !! "mix" = Some (VNumber q)
             ∧ (50.35 <= q)%Q ∧ (q < 50.45)%Q))
  ∧ (midiMappings s !! key = None →
     handleMidiMessage isControlChange message s = (s, [])).
Proof.
  intros Hcc Ht Hl s' key. split.
  - intros m Hm. subst s'.
    rewrite (handleMidiMessage_idle_mapped _ _ _ _ Hcc Ht Hl Hm). cbn [fst].
    set (u := Updater _).
    assert (settingsOf (handlePluginStateChange (pluginKey m) u s) (pluginKey m)
            = <[paramName m := VNumber (scaledValue m (value message))]>
                (settingsOf s (pluginKey m))) as Hset.
    { rewrite update_settings_self. subst u. cbn [partialOf].
      fold (settingsOf s (pluginKey m)). apply merge_insert_self. }
    split; [exact Hset|].
    split; [by rewrite handlePluginStateChange_allocs|].
    split; [by rewrite handlePluginStateChange_allocs|].
    intros Em Ev. rewrite Em, Ev in Hset. cbn [pluginKey paramName] in Hset.
    rewrite Em. cbn [pluginKey]. rewrite Hset.
    eexists. split; [apply lookup_insert_eq|].
    split; vm_compute; congruence.
  - intros Hm. by apply (handleMidiMessage_idle_unmapped _ deviceId).
Qed.

(** C3. With a learn target armed, one control-change message records the
    target under the key of [(deviceId, cc)], replacing what was stored
    there and touching no other key, disarms the learn state and leaves the
    parameter store as it was: same heap, same settings mapping. *)
Theorem handleMidiMessage_captures (message : MIDIMessageEvent)
    (deviceId : string) (t : MidiMapping) (s : AppState) :
  isControlChange message = true →
  target message = Some deviceId →
  midiLearnTarget s = Some t →
  let s' := (handleMidiMessage isControlChange message s).1 in
  midiMappings s' !! mappingKey deviceId (cc message)
    = Some (mkMidiMapping (pluginKey t) (paramName t) (min t) (max t))
  ∧ (∀ d c, (d, c) ≠ (deviceId, cc message) →
       midiMappings s' !! mappingKey d c = midiMappings s !! mappingKey d c)
  ∧ (∀ k, k ≠ mappingKey deviceId (cc message) →
       midiMappings s' !! k = midiMappings s !! k)
  ∧ dom (midiMappings s') = {[ mappingKey deviceId (cc message) ]} ∪ dom (midiMappings s)
  ∧ midiLearnTarget s' = None
  ∧ heap s' = heap s ∧ pluginStates s' = pluginStates s
  ∧ (∀ k, settingsOf s' k = settingsOf s k).
Proof.
  intros Hcc Ht Hl s'. subst s'. unfold handleMidiMessage.
  rewrite Hcc, Ht, Hl. cbn.
  split; [apply lookup_insert_eq|].
  split.
  { intros d c Hne. apply lookup_insert_ne. intros E.
    apply mappingKey_inj in E as [<- <-]. done. }
  split; [intros k Hne; by apply lookup_insert_ne|].
  split; [apply dom_insert_L|]. done.
Qed.

(** C4. With a target armed, [handleMidiLearnStart] for the same plug-in
    and parameter disarms it and records no mapping; for another pair it
    puts the new target in the single slot. *)
Theorem handleMidiLearnStart_toggles (k : PluginKey) (p : string) (lo hi : Q)
    (t : MidiMapping) (s : AppState) :
  midiLearnTarget s = Some t →
  let s' := (handleMidiLearnStart k p lo hi s).1 in
  (pluginKey t = k ∧ paramName t = p → midiLearnTarget s' = None)
  ∧ (¬ (pluginKey t = k ∧ paramName t = p) →
     midiLearnTarget s' = Some (mkMidiMapping k p lo hi))
  ∧ midiMappings s' = midiMappings s
  ∧ heap s' = heap s ∧ pluginStates s' = pluginStates s
  ∧ sidechainLinks s' = sidechainLinks s.
Proof.
  intros Hl s'. subst s'. unfold handleMidiLearnStart. rewrite Hl.
  destruct (String.eqb_spec (pluginKey t) k) as [Ek|Ek];
    destruct (String.eqb_spec (paramName t) p) as [Ep|Ep]; cbn;
    (split; [intros [??]; done|]); (split; [|done]); intros Hn;
    try done; by destruct Hn.
Qed.

(** *** Sidechain links *)

Lemma linksTo_app t l1 l2 : linksTo t (l1 ++ l2) = (linksTo t l1 + linksTo t l2)%nat.
Proof. unfold linksTo. by rewrite List.filter_app, length_app. Qed.

Lemma linksTo_none t links : hasLinkTo t links = false → linksTo t links = 0%nat.
Proof.
  unfold hasLinkTo, linksTo. induction links as [|l links IH]; cbn; [done|].
  destruct (String.eqb (to l) t); cbn; [done|]. exact IH.
Qed.

Lemma linksTo_filter_le t (P : SidechainLink → bool) links :
  (linksTo t (List.filter P links) ≤ linksTo t links)%nat.
Proof.
  unfold linksTo. induction links as [|l links IH]; cbn; [done|].
  destruct (P l); cbn; destruct (String.eqb (to l) t); cbn; lia.
Qed.

Lemma handleAddLink_links l s :
  sidechainLinks (handleAddLink l s).1
  = if hasLinkTo (to l) (sidechainLinks s) then sidechainLinks s
    else sidechainLinks s ++ [l].
Proof.
  unfold handleAddLink, hasLinkTo. by destruct (existsb _ _).
Qed.

Lemma handleRemoveLink_links l s :
  sidechainLinks (handleRemoveLink canBeSidechainTarget l s).1
  = List.filter (λ link, negb (String.eqb (from link) (from l)
                               && String.eqb (to link) (to l)))
      (sidechainLinks s).
Proof.
  unfold handleRemoveLink. cbn [fst].
  destruct (canBeSidechainTarget (to l)); [|done].
  by rewrite handlePluginStateChange_allocs.
Qed.

Lemma applyLinkOp_invariant op s :
  oneSourcePerTarget (sidechainLinks s) →
  oneSourcePerTarget (sidechainLinks (applyLinkOp canBeSidechainTarget s op)).
Proof.
  intros Hinv t. destruct op as [l|l]; cbn [applyLinkOp].
  - rewrite handleAddLink_links.
    destruct (hasLinkTo (to l) (sidechainLinks s)) eqn:E; [apply Hinv|].
    rewrite linksTo_app. unfold linksTo at 2. cbn.
    destruct (String.eqb_spec (to l) t) as [<-|Hne]; cbn.
    + rewrite (linksTo_none _ _ E). lia.
    + specialize (Hinv t). lia.
  - rewrite handleRemoveLink_links.
    etrans; [apply linksTo_filter_le|apply Hinv].
Qed.

Lemma runLinkOps_invariant ops s :
  oneSourcePerTarget (sidechainLinks s) →
  oneSourcePerTarget (sidechainLinks (runLinkOps canBeSidechainTarget ops s)).
Proof.
  revert s. induction ops as [|op ops IH]; intros s Hinv; [done|].
  cbn. apply IH. by apply applyLinkOp_invariant.
Qed.

(** C5. At most one link targets any endpoint after every run of addLink
    and removeLink operations; [handleAddLink] appends the link when no link
    has its target and leaves the state alone when one has, so that adding
    A→C and then B→C to an empty list leaves A→C only. *)
Theorem sidechain_one_source_per_target (ops : list LinkOp) (s : AppState) :
  oneSourcePerTarget (sidechainLinks s) →
  oneSourcePerTarget (sidechainLinks (runLinkOps canBeSidechainTarget ops s))
  ∧ (∀ l, hasLinkTo (to l) (sidechainLinks s) = false →
       sidechainLinks (handleAddLink l s).1 = sidechainLinks s ++ [l])
  ∧ (∀ l, hasLinkTo (to l) (sidechainLinks s) = true →
       handleAddLink l s = (s, []))
  ∧ (∀ A B C, sidechainLinks s = [] →
       sidechainLinks
         (runLinkOps canBeSidechainTarget
            [AddLink (mkSidechainLink A C); AddLink (mkSidechainLink B C)] s)
       = [mkSidechainLink A C]).
Proof.
  intros Hinv. split; [by apply runLinkOps_invariant|].
  split.
  { intros l E. by rewrite handleAddLink_links, E. }
  split.
  { intros l E. unfold handleAddLink. unfold hasLinkTo in E. by rewrite E. }
  intros A B C E. cbn [runLinkOps fold_left applyLinkOp].
  rewrite handleAddLink_links.
  rewrite handleAddLink_links, E. cbn [hasLinkTo existsb to app].
  cbn. by rewrite String.eqb_refl.
Qed.

(** *** Paths on which nothing is to be done *)

Lemma handleLoadPreset_missing n s :
  (∀ p, p ∈ presets s → name p ≠ n) → handleLoadPreset n s = (s, []).
Proof.
  intros Hn. unfold handleLoadPreset.
  destruct (List.find _ _) as [p|] eqn:E; [|done].
  apply List.find_some in E as [Hin Heq].
  apply String.eqb_eq in Heq. apply list_elem_of_In in Hin.
  by destruct (Hn p Hin).
Qed.

Lemma filter_absent l links :
  hasLink l links = false →
  List.filter (λ link, negb (String.eqb (from link) (from l)
                             && String.eqb (to link) (to l))) links = links.
Proof.
  unfold hasLink. induction links as [|x links IH]; cbn; [done|].
  intros H. apply orb_false_iff in H as [Hx Hr]. rewrite Hx. cbn.
  by rewrite IH.
Qed.

Lemma set_sidechainLinks_same s : set_sidechainLinks (sidechainLinks s) s = s.
Proof. by destruct s. Qed.

(** C6, as the code has it. These paths leave the whole session state as
    it was: a control-change message with no mapping on record that arrives
    while no learn target is armed, the load of a preset name that does not
    exist, and addLink to a target that is linked already. removeLink of an
    edge that is not present leaves the links, the mappings, the learn
    target and the presets as they were; it leaves the whole state as it
    was when the target plug-in cannot be a sidechain target, and otherwise
    it still sets [sidechainActive] of the target to [false], every other
    plug-in keeping the reference it had. *)
Theorem failure_paths_retain_state (s : AppState) :
  (∀ message deviceId,
     isControlChange message = true → target message = Some deviceId →
     midiLearnTarget s = None →
     midiMappings s !! mappingKey deviceId (cc message) = None →
     handleMidiMessage isControlChange message s = (s, []))
  ∧ (∀ n, (∀ p, p ∈ presets s → name p ≠ n) → handleLoadPreset n s = (s, []))
  ∧ (∀ l, hasLinkTo (to l) (sidechainLinks s) = true → handleAddLink l s = (s, []))
  ∧ (∀ l, hasLink l (sidechainLinks s) = false →
       let s' := (handleRemoveLink canBeSidechainTarget l s).1 in
       sidechainLinks s' = sidechainLinks s
       ∧ midiMappings s' = midiMappings s
       ∧ midiLearnTarget s' = midiLearnTarget s
       ∧ presets s' = presets s
       ∧ (canBeSidechainTarget (to l) = false → s' = s)
       ∧ (canBeSidechainTarget (to l) = true →
            settingsOf s' (to l)
            = <["sidechainActive" := VBool false]> (settingsOf s (to l))
            ∧ ∀ B, B ≠ to l → get (statesOf s') B = get (statesOf s) B)).
Proof.
  split; [intros m d; apply handleMidiMessage_idle_unmapped|].
  split; [intros n; apply handleLoadPreset_missing|].
  split.
  { intros l E. unfold handleAddLink. unfold hasLinkTo in E. by rewrite E. }
  intros l E s'. subst s'. unfold handleRemoveLink. cbn [fst].
  rewrite (filter_absent _ _ E), set_sidechainLinks_same.
  destruct (canBeSidechainTarget (to l)).
  - rewrite handlePluginStateChange_allocs. cbn [sidechainLinks midiMappings
      midiLearnTarget presets set_pluginStates].
    do 4 (split; [done|]). split; [done|]. intros _.
    rewrite <- handlePluginStateChange_allocs. split.
    + rewrite update_settings_self. cbn [partialOf]. unfold merge.
      symmetry. apply insert_union_singleton_l.
    + intros B HB. by apply update_ref_other.
  - do 4 (split; [done|]). split; [done|]. intros ?; done.
Qed.

End Spec.

(** *** The statements at the example session *)

Lemma handlePluginStateChange_frame_at_example :
  settingsOf
    (handlePluginStateChange "reverb" (Partial {[ "mix" := VNumber 30 ]})
       Examples.session) "reverb" !! "mix"
  = Some (VNumber 30)
  ∧ settingsOf
      (handlePluginStateChange "reverb" (Partial {[ "mix" := VNumber 30 ]})
         Examples.session) "reverb" !! "size"
    = Some (VNumber 50)
  ∧ settingsOf
      (handlePluginStateChange "reverb" (Partial {[ "mix" := VNumber 30 ]})
         Examples.session) "comp"
    = Examples.comp.
Proof.
  pose proof (handlePluginStateChange_frame "reverb"
                (Partial {[ "mix" := VNumber 30 ]}) Examples.session)
    as (_ & H1 & _ & H2 & _).
  split; [|split].
  - rewrite (H1 "mix"). reflexivity.
  - rewrite (H1 "size"). reflexivity.
  - destruct (H2 "comp") as [_ H]; [discriminate|].
    rewrite H; [reflexivity|].
    intros l Hl. vm_compute in Hl. injection Hl as <-. by eexists.
Defined.

Lemma handleMidiMessage_applies_mapping_at_example :
  ∃ q, settingsOf
         (handleMidiMessage Examples.isControlChange (Examples.message 10 64)
            Examples.session).1 "reverb" !! "mix" = Some (VNumber q)
       ∧ (50.35 <= q)%Q ∧ (q < 50.45)%Q.
Proof.
  assert (Examples.isControlChange (Examples.message 10 64) = true) as Hcc
    by reflexivity.
  assert (target (Examples.message 10 64) = Some "dev1") as Ht by reflexivity.
  assert (midiLearnTarget Examples.session = None) as Hl by reflexivity.
  pose proof (handleMidiMessage_applies_mapping Examples.isControlChange
                (Examples.message 10 64) "dev1" Examples.session Hcc Ht Hl)
    as [H _].
  apply (H (mkMidiMapping "reverb" "mix" 0 100)); [|reflexivity..].
  vm_compute. reflexivity.
Defined.

Lemma handleMidiMessage_captures_at_example :
  midiMappings
    (handleMidiMessage Examples.isControlChange (Examples.message 7 5)
       Examples.armed).1 !! mappingKey "dev1" 7
  = Some (mkMidiMapping "reverb" "size" 0 100)
  ∧ midiLearnTarget
      (handleMidiMessage Examples.isControlChange (Examples.message 7 5)
         Examples.armed).1 = None.
Proof.
  assert (Examples.isControlChange (Examples.message 7 5) = true) as Hcc
    by reflexivity.
  assert (target (Examples.message 7 5) = Some "dev1") as Ht by reflexivity.
  assert (midiLearnTarget Examples.armed
          = Some (mkMidiMapping "reverb" "size" 0 100)) as Hl by reflexivity.
  pose proof (handleMidiMessage_captures Examples.isControlChange
                (Examples.message 7 5) "dev1" _ Examples.armed Hcc Ht Hl)
    as (H1 & _ & _ & _ & H2 & _).
  split; [exact H1 | exact H2].
Defined.

Lemma handleMidiLearnStart_toggles_at_example :
  midiLearnTarget (handleMidiLearnStart "reverb" "size" 0 127 Examples.armed).1 = None
  ∧ midiLearnTarget (handleMidiLearnStart "reverb" "mix" 0 100 Examples.armed).1
    = Some (mkMidiMapping "reverb" "mix" 0 100).
Proof.
  assert (midiLearnTarget Examples.armed
          = Some (mkMidiMapping "reverb" "size" 0 100)) as Hl by reflexivity.
  split.
  - apply (handleMidiLearnStart_toggles "reverb" "size" 0 127 _ Examples.armed Hl).
    by split.
  - apply (handleMidiLearnStart_toggles "reverb" "mix" 0 100 _ Examples.armed Hl).
    cbn. intros [_ E]. discriminate E.
Defined.

Lemma sidechain_one_source_per_target_at_example :
  oneSourcePerTarget
    (sidechainLinks
       (runLinkOps Examples.canBeSidechainTarget
          [AddLink (mkSidechainLink "gate" "comp");
           AddLink (mkSidechainLink "reverb" "comp");
           RemoveLink (mkSidechainLink "gate" "comp")] Examples.session))
  ∧ sidechainLinks
      (runLinkOps Examples.canBeSidechainTarget
         [AddLink (mkSidechainLink "gate" "comp");
          AddLink (mkSidechainLink "reverb" "comp")] Examples.session)
    = [mkSidechainLink "gate" "comp"].
Proof.
  assert (oneSourcePerTarget (sidechainLinks Examples.session)) as Hinv.
  { intros t. cbn. lia. }
  split.
  - apply (sidechain_one_source_per_target Examples.canBeSidechainTarget _ _ Hinv).
  - apply (sidechain_one_source_per_target Examples.canBeSidechainTarget [] _ Hinv).
    reflexivity.
Defined.

Lemma failure_paths_retain_state_at_example :
  handleMidiMessage Examples.isControlChange (Examples.message 11 5) Examples.session
  = (Examples.session, [])
  ∧ handleLoadPreset "P1" Examples.session = (Examples.session, [])
  ∧ (handleRemoveLink Examples.canBeSidechainTarget
       (mkSidechainLink "comp" "reverb") Examples.session).1 = Examples.session.
Proof.
  pose proof (failure_paths_retain_state Examples.isControlChange
                Examples.canBeSidechainTarget Examples.session)
    as (H1 & H2 & _ & H4).
  split; [|split].
  - apply (H1 _ "dev1"); [reflexivity..|]. vm_compute. reflexivity.
  - apply H2. intros p Hp. cbn in Hp. by apply elem_of_nil in Hp.
  - apply (H4 (mkSidechainLink "comp" "reverb")); reflexivity.
Defined.

(** C6 as stated fails twice. removeLink of an edge that is not present
    still clears [sidechainActive] of a target that can be a sidechain
    target; and a control-change message with no mapping on record is
    captured, not ignored, when a learn target is armed. *)
Lemma failure_paths_that_change_state :
  (hasLink (mkSidechainLink "reverb" "comp") (sidechainLinks Examples.session) = false
   ∧ settingsOf Examples.session "comp" !! "sidechainActive" = Some (VBool true)
   ∧ settingsOf
       (handleRemoveLink Examples.canBeSidechainTarget
          (mkSidechainLink "reverb" "comp") Examples.session).1 "comp"
       !! "sidechainActive" = Some (VBool false))
  ∧ (midiMappings Examples.armed !! mappingKey "dev1" 7 = None
     ∧ midiMappings
         (handleMidiMessage Examples.isControlChange (Examples.message 7 5)
            Examples.armed).1 !! mappingKey "dev1" 7
       = Some (mkMidiMapping "reverb" "size" 0 100)).
Proof. repeat split; vm_compute; reflexivity. Qed.

End AppSpec.

(** ** The MixxVerb bridge *)

Module MixxVerbSpec.
Import MixxVerb.

Local Open Scope Q_scope.

Lemma Qltb_lt (a b : Q) : Qltb a b = true ↔ a < b.
Proof.
  unfold Qltb. rewrite negb_true_iff. split.
  - intros H. apply Qnot_le_lt. intros Hle. apply Qle_bool_iff in Hle. congruence.
  - intros H. destruct (Qle_bool b a) eqn:E; [|done].
    apply Qle_bool_iff in E. lra.
Qed.

Lemma Qltb_ge (a b : Q) : Qltb a b = false ↔ b <= a.
Proof.
  unfold Qltb. rewrite negb_false_iff. apply Qle_bool_iff.
Qed.

Lemma normalizedMix_gate (mix : Q) : Qltb 0.01 (mix / 100) = true ↔ 1 < mix.
Proof.
  rewrite Qltb_lt. assert (mix / 100 == mix * (1 # 100)) as -> by field.
  split; lra.
Qed.

Lemma depthSpeedOf_bounds (g : GlobalSettings) :
  0 <= animationIntensity g → animationIntensity g <= 100 →
  (1 # 800) <= depthSpeedOf g ∧ depthSpeedOf g <= 0.005.
Proof.
  intros H0 H100. unfold depthSpeedOf, mapRange.
  set (a := animationIntensity g) in *.
  assert ((a - 0) * (0.25 - 1) / (100 - 0) == a * - (3 # 400)) as E by field.
  rewrite E. split; lra.
Qed.

(** [Math.round] of a number between 0 and [n] lies between 0 and [n]. *)
Lemma round_range (q : Q) (n : Z) : 0 <= q → q <= inject_Z n → (0 ≤ round q ≤ n)%Z.
Proof.
  intros H0 Hn. unfold round. split.
  - change 0%Z with (Qfloor 0). apply Qfloor_resp_le. lra.
  - apply Z.lt_succ_r. rewrite Zlt_Qlt.
    pose proof (Qfloor_le (q + 0.5)) as Hf.
    unfold Z.succ. rewrite inject_Z_plus. change (inject_Z 1) with 1. lra.
Qed.

Lemma particleCount_low (nm : Q) (g : GlobalSettings) :
  isLow g = true → 0 <= nm → nm <= 1 → (10 ≤ particleCount nm g ≤ 40)%Z.
Proof.
  intros Hlow H0 H1. unfold particleCount. rewrite Hlow.
  pose proof (round_range (nm * 30) 30) as H.
  change (inject_Z 30) with 30 in H.
  assert (0 <= nm * 30) as Ha by lra. assert (nm * 30 <= 30) as Hb by lra.
  specialize (H Ha Hb). lia.
Qed.

Section Spec.
Variable random : nat → Q.

Lemma spawn_length n size now hue c r :
  length (spawn random n size now hue c r).1.1 = n.
Proof.
  revert c r. induction n as [|n IH]; intros c r; cbn; [done|].
  specialize (IH (c + 1)%Z (r + 5)%nat).
  destruct (spawn random n size now hue (c + 1) (r + 5)) as [[ps c'] r'].
  cbn in *. by rewrite IH.
Qed.

Lemma burstParticles_length nm g size now hue w :
  length (burstParticles random nm g size now hue w) = Z.to_nat (particleCount nm g).
Proof. apply spawn_length. Qed.

Lemma runBurst_particles nm g size now hue w :
  particles (runBurst random nm g size now hue w)
  = drop (length (particles w ++ burstParticles random nm g size now hue w) - 300)
      (particles w ++ burstParticles random nm g size now hue w).
Proof.
  unfold runBurst, burstParticles.
  destruct (spawn random _ size now hue _ _) as [[ps c] r].
  cbn [fst set_particles particles].
  destruct (Nat.ltb_spec 300 (length (particles w ++ ps))) as [H|H]; [done|].
  replace (length (particles w ++ ps) - 300)%nat with 0%nat by lia. done.
Qed.

Lemma runBurst_capped nm g size now hue w :
  (length (particles (runBurst random nm g size now hue w)) ≤ 300)%nat.
Proof. rewrite runBurst_particles, length_drop. lia. Qed.

Lemma runBurst_timers nm g size now hue w :
  timers (runBurst random nm g size now hue w) = timers w
  ∧ nextHandle (runBurst random nm g size now hue w) = nextHandle w
  ∧ pulseTimeout (runBurst random nm g size now hue w) = pulseTimeout w.
Proof.
  unfold runBurst. by destruct (spawn random _ size now hue _ _) as [[ps c] r].
Qed.

(** *** What a transient does to the timers *)

Lemma onTransient_fields g now hue w :
  particles (onTransient g now hue w) = particles w
  ∧ randomCalls (onTransient g now hue w) = randomCalls w
  ∧ particleIdCounter (onTransient g now hue w) = particleIdCounter w
  ∧ settings (onTransient g now hue w) = settings w.
Proof.
  unfold onTransient. cbn.
  destruct (Qltb 0.01 _); [|done]. by destruct (pulseTimeout w).
Qed.

Lemma onTransient_below_gate g now hue w :
  Settings.mix (settings w) <= 1 →
  onTransient g now hue w = set_lastTransientTime now w.
Proof.
  intros H. unfold onTransient. cbn.
  destruct (Qltb 0.01 _) eqn:E; [|done].
  apply normalizedMix_gate in E. lra.
Qed.

Lemma onTransient_above_gate g now hue w :
  1 < Settings.mix (settings w) →
  timers (onTransient g now hue w)
  = keptTimers w
    ++ [mkTimer (nextHandle w) 100 PulseOff;
        mkTimer (Pos.succ (nextHandle w)) (Settings.predelay (settings w))
          (Burst (Settings.mix (settings w) / 100) g
             (Settings.size (settings w)) now hue)]
  ∧ pulseTimeout (onTransient g now hue w) = Some (nextHandle w)
  ∧ nextHandle (onTransient g now hue w) = Pos.succ (Pos.succ (nextHandle w)).
Proof.
  intros H. apply normalizedMix_gate in H. unfold onTransient, keptTimers. cbn.
  rewrite H. destruct (pulseTimeout w); cbn; by rewrite <- app_assoc.
Qed.

Lemma dspProcess_state a wd ht g m w :
  let w1 := if transientObserved a w
            then onTransient g (time a) (baseHueOf m) w else w in
  (dspProcess random a wd ht g m w).1
  = set_particles
      (List.filter alive (advance random (depthSpeedOf g) (particles w) (randomCalls w)).1)
      (particleIdCounter w)
      (advance random (depthSpeedOf g) (particles w) (randomCalls w)).2 w1.
Proof.
  intros w1. unfold dspProcess. fold w1.
  assert (particles w1 = particles w ∧ randomCalls w1 = randomCalls w
          ∧ particleIdCounter w1 = particleIdCounter w) as (-> & -> & ->).
  { subst w1. destruct (transientObserved a w); [|done].
    by destruct (onTransient_fields g (time a) (baseHueOf m) w) as (? & ? & ? & _). }
  by destruct (advance random _ _ _).
Qed.

Lemma dspProcess_timers a wd ht g m w :
  let w1 := if transientObserved a w
            then onTransient g (time a) (baseHueOf m) w else w in
  timers (dspProcess random a wd ht g m w).1 = timers w1
  ∧ pulseTimeout (dspProcess random a wd ht g m w).1 = pulseTimeout w1
  ∧ nextHandle (dspProcess random a wd ht g m w).1 = nextHandle w1.
Proof. intros w1. by rewrite dspProcess_state. Qed.

(** C7, as the code has it. On an observed transient: when mix is at most
    1 (its normalized value does not exceed 0.01; mix = 0 is the case the
    spec names) no timer is scheduled and no particle is ever pushed for
    it; when mix exceeds 1 exactly two timers are scheduled, the pulse reset
    and one burst delayed by [predelay], and for mix up to 100 under
    [visualizerComplexity = 'low'] that burst pushes between 10 and 40
    particles when it runs. *)
Theorem transient_burst_size (a : AudioSignal) (wd ht : Q) (g : GlobalSettings)
    (m : option string) (w : State) :
  transientObserved a w = true →
  let w' := (dspProcess random a wd ht g m w).1 in
  let mix := Settings.mix (settings w) in
  let burst := Burst (mix / 100) g (Settings.size (settings w)) (time a) (baseHueOf m) in
  (mix <= 1 → timers w' = timers w)
  ∧ (1 < mix →
       timers w'
       = keptTimers w
         ++ [mkTimer (nextHandle w) 100 PulseOff;
             mkTimer (Pos.succ (nextHandle w)) (Settings.predelay (settings w)) burst])
  ∧ (1 < mix → mix <= 100 → isLow g = true →
       (10 ≤ particleCount (mix / 100) g ≤ 40)%Z
       ∧ ∀ w2, (10 ≤ length (burstParticles random (mix / 100) g
                              (Settings.size (settings w)) (time a) (baseHueOf m) w2)
                  ≤ 40)%nat).
Proof.
  intros Hobs w' mix burst.
  destruct (dspProcess_timers a wd ht g m w) as (Ht & _ & _).
  rewrite Hobs in Ht. fold w' in Ht.
  split.
  { intros Hmix. rewrite Ht, onTransient_below_gate by done. done. }
  split.
  { intros Hmix. rewrite Ht. by apply onTransient_above_gate. }
  intros Hlo Hhi Hlow.
  assert (10 ≤ particleCount (mix / 100) g ≤ 40)%Z as Hc.
  { assert (mix / 100 == mix * (1 # 100)) as E by field.
    apply particleCount_low; [done|rewrite E; lra..]. }
  split; [done|]. intros w2. rewrite burstParticles_length. lia.
Qed.

(** *** The particle list *)

Lemma advance_length ds ps r : length (advance random ds ps r).1 = length ps.
Proof.
  revert r. induction ps as [|p ps IH]; intros r; cbn; [done|].
  specialize (IH (r + 3)%nat).
  destruct (advance random ds ps (r + 3)) as [rest r']. cbn in *. by rewrite IH.
Qed.

(** Every particle comes out of [advance] that much deeper, with the id and
    the lifetime it had. *)
Lemma advance_deeper ds ps r :
  Forall2 (λ p p', Particle.z p' = Particle.z p + ds
                   ∧ Particle.id p' = Particle.id p
                   ∧ Particle.life p' = Particle.life p)
    ps (advance random ds ps r).1.
Proof.
  revert r. induction ps as [|p ps IH]; intros r; cbn; [constructor|].
  specialize (IH (r + 3)%nat).
  destruct (advance random ds ps (r + 3)) as [rest r']. cbn in *.
  by constructor.
Qed.

Lemma alive_spec p :
  alive p = true ↔ Particle.z p < Particle.life p ∧ 0.01 < Particle.opacity p.
Proof. unfold alive. by rewrite andb_true_iff, !Qltb_lt. Qed.

Lemma dead_spec p :
  alive p = false ↔ Particle.life p <= Particle.z p ∨ Particle.opacity p <= 0.01.
Proof. unfold alive. by rewrite andb_false_iff, !Qltb_ge. Qed.

Lemma filter_length_lt {A} (f : A → bool) (l : list A) :
  Exists (λ x, f x = false) l → (length (List.filter f l) < length l)%nat.
Proof.
  induction 1 as [x l Hx|x l _ IH]; cbn.
  - rewrite Hx. pose proof (List.filter_length_le f l). lia.
  - destruct (f x); cbn; lia.
Qed.

Lemma dspProcess_particles a wd ht g m w :
  particles (dspProcess random a wd ht g m w).1
  = List.filter alive (advance random (depthSpeedOf g) (particles w) (randomCalls w)).1.
Proof. by rewrite dspProcess_state. Qed.

Lemma dspProcess_length a wd ht g m w :
  (length (particles (dspProcess random a wd ht g m w).1) ≤ length (particles w))%nat.
Proof.
  rewrite dspProcess_particles.
  etrans; [apply List.filter_length_le|]. by rewrite advance_length.
Qed.

Lemma step_capped w e :
  (length (particles w) ≤ 300)%nat → (length (particles (step random w e)) ≤ 300)%nat.
Proof.
  intros H. destruct e as [a wd ht g m|h|s]; cbn [step].
  - etrans; [apply dspProcess_length|done].
  - unfold fire. destruct (List.find _ _) as [t|]; [|done].
    destruct (callback t); cbn [runCallback]; [done|apply runBurst_capped].
  - done.
Qed.

Lemma run_capped es w :
  (length (particles w) ≤ 300)%nat → (length (particles (run random es w)) ≤ 300)%nat.
Proof.
  revert w. induction es as [|e es IH]; intros w H; [done|].
  cbn. apply IH. by apply step_capped.
Qed.

(** C8. A burst leaves the last 300 of the particles it was given plus its
    own, so at most 300, the excess going from the front of the list; and
    whatever the frames, timers and setting changes that follow one another,
    a list of at most 300 particles never grows past 300. *)
Theorem particles_capped_at_300 (es : list Event) (w : State) :
  (length (particles w) ≤ 300)%nat →
  (length (particles (run random es w)) ≤ 300)%nat
  ∧ ∀ nm g size now hue w0,
      let pushed := particles w0 ++ burstParticles random nm g size now hue w0 in
      particles (runBurst random nm g size now hue w0)
      = drop (length pushed - 300) pushed
      ∧ (length (particles (runBurst random nm g size now hue w0)) ≤ 300)%nat.
Proof.
  intros H. split; [by apply run_capped|].
  intros nm g size now hue w0 pushed.
  split; [apply runBurst_particles|apply runBurst_capped].
Qed.

(** *** Quiescence *)

Lemma advance_slack ds ps r (C : Q) :
  (1 # 800) <= ds →
  Forall (λ p, Particle.life p - Particle.z p <= C) ps →
  Forall (λ p, Particle.life p - Particle.z p <= C - (1 # 800)
               ∧ Particle.z p < Particle.life p)
    (List.filter alive (advance random ds ps r).1).
Proof.
  intros Hds. revert r. induction ps as [|p ps IH]; intros r Hps; cbn; [constructor|].
  apply Forall_cons in Hps as [Hp Hps]. specialize (IH (r + 3)%nat Hps).
  destruct (advance random ds ps (r + 3)) as [rest r']. cbn [fst List.filter] in *.
  destruct (alive _) eqn:E; [|done].
  apply alive_spec in E as [Hz _]. cbn in Hz.
  constructor; [|done]. cbn. split; lra.
Qed.

Lemma slack_bound (ps : list Particle.t) :
  ∃ B : Q, Forall (λ p, Particle.life p - Particle.z p <= B) ps.
Proof.
  induction ps as [|p ps [B HB]]; [exists 0; constructor|].
  exists (Qabs (Particle.life p - Particle.z p) + Qabs B).
  pose proof (Qle_Qabs (Particle.life p - Particle.z p)).
  pose proof (Qabs_nonneg (Particle.life p - Particle.z p)).
  pose proof (Qle_Qabs B). pose proof (Qabs_nonneg B).
  constructor; [lra|].
  eapply Forall_impl; [exact HB|]. cbv beta. intros q Hq. lra.
Qed.

Lemma fire_quiet h w :
  noBurstPending w →
  particles (fire random h w) = particles w ∧ noBurstPending (fire random h w).
Proof.
  intros Hn. unfold fire.
  destruct (List.find _ _) as [t|] eqn:E; [|done].
  apply List.find_some in E as [Hin _].
  unfold noBurstPending in Hn. rewrite List.Forall_forall in Hn.
  rewrite (Hn t Hin). cbn. split; [done|].
  unfold noBurstPending. cbn. apply List.Forall_forall.
  intros t' Ht'. apply List.filter_In in Ht' as [Ht' _]. by apply Hn.
Qed.

Lemma quiet_frame_state a wd ht g m w :
  transients a = false →
  timers (dspProcess random a wd ht g m w).1 = timers w.
Proof.
  intros Ha. destruct (dspProcess_timers a wd ht g m w) as (-> & _).
  unfold transientObserved. by rewrite Ha.
Qed.

Lemma Qnat_S k : Qnat (S k) == Qnat k + 1.
Proof.
  unfold Qnat. rewrite Nat2Z.inj_succ. unfold Z.succ.
  by rewrite inject_Z_plus.
Qed.

Lemma quiet_run es : ∀ w k B,
  noBurstPending w → Forall quietFrame es →
  Forall (λ p, Particle.life p - Particle.z p <= B - Qnat k * (1 # 800)) (particles w) →
  ((1 ≤ k)%nat → Forall (λ p, Particle.z p < Particle.life p) (particles w)) →
  Forall (λ p, Particle.life p - Particle.z p <= B - Qnat (k + frames es) * (1 # 800))
    (particles (run random es w))
  ∧ ((1 ≤ k + frames es)%nat →
     Forall (λ p, Particle.z p < Particle.life p) (particles (run random es w)))
  ∧ (length (particles (run random es w)) ≤ length (particles w))%nat.
Proof.
  induction es as [|e es IH]; intros w k B Hn Hq Hb Hz.
  { cbn. rewrite Nat.add_0_r. done. }
  apply Forall_cons in Hq as [He Hq]. cbn [run fold_left].
  fold (run random es (step random w e)).
  destruct e as [a wd ht g m|h|s]; cbn [step].
  - destruct He as (Ha & H0 & H100).
    destruct (depthSpeedOf_bounds g H0 H100) as [Hds _].
    pose proof (advance_slack (depthSpeedOf g) (particles w) (randomCalls w) _ Hds Hb)
      as Hadv.
    rewrite <- dspProcess_particles with (a := a) (wd := wd) (ht := ht) (m := m) in Hadv.
    destruct (IH (dspProcess random a wd ht g m w).1 (S k) B) as (I1 & I2 & I3).
    + unfold noBurstPending. by rewrite quiet_frame_state.
    + done.
    + eapply Forall_impl; [exact Hadv|]. cbn. intros p [Hp _].
      pose proof (Qnat_S k). lra.
    + intros _. eapply Forall_impl; [exact Hadv|]. cbn. by intros p [_ Hp].
    + unfold frames in *. cbn [List.filter isFrame length].
      rewrite Nat.add_succ_r. split; [done|]. split; [intros _; apply I2; lia|].
      etrans; [exact I3|apply dspProcess_length].
  - destruct (fire_quiet h w Hn) as [Hp Hn'].
    destruct (IH (fire random h w) k B Hn' Hq) as (I1 & I2 & I3).
    + by rewrite Hp.
    + by rewrite Hp.
    + unfold frames in *. cbn [List.filter isFrame]. by rewrite <- Hp.
  - destruct (IH (setSettings s w) k B Hn Hq Hb Hz) as (I1 & I2 & I3).
    unfold frames in *. cbn [List.filter isFrame]. done.
Qed.

Lemma quiet_run_empties w :
  noBurstPending w →
  ∃ N : nat, ∀ es, Forall quietFrame es → (N ≤ frames es)%nat →
    particles (run random es w) = [].
Proof.
  intros Hn. destruct (slack_bound (particles w)) as [B HB].
  exists (S (Z.to_nat (Qceiling (B * 800)))). intros es Hq HN.
  destruct (quiet_run es w 0 B Hn Hq) as (I1 & I2 & _).
  { eapply Forall_impl; [exact HB|]. cbn. intros p Hp.
    change (Qnat 0) with 0. lra. }
  { lia. }
  destruct (particles (run random es w)) as [|p ps]; [done|exfalso].
  apply Forall_cons in I1 as [I1 _].
  assert (1 ≤ 0 + frames es)%nat as H1 by lia.
  apply I2 in H1. apply Forall_cons in H1 as [H1 _].
  assert (B * 800 <= Qnat (frames es)) as Hle.
  { eapply Qle_trans; [apply Qle_ceiling|]. unfold Qnat. rewrite <- Zle_Qle. lia. }
  cbn [Nat.add] in I1. lra.
Qed.

(** C9, as the code has it. In a frame drawn with an animation intensity
    between 0 and 100 the depth of every particle grows by the same positive
    step; the particles kept are those whose new depth is below their
    lifetime and whose new opacity is above 0.01; the list does not grow,
    and it shrinks when the new depth of one of its particles reaches its
    lifetime. When no burst of an earlier transient is still pending and no
    further transient occurs, the list never grows along a run of frames,
    timers and setting changes, and it is empty once enough frames have been
    drawn. *)
Theorem particles_sink_and_expire (w : State) :
  (∀ a wd ht g m,
     0 <= animationIntensity g → animationIntensity g <= 100 →
     let w' := (dspProcess random a wd ht g m w).1 in
     let moved := (advance random (depthSpeedOf g) (particles w) (randomCalls w)).1 in
     0 < depthSpeedOf g
     ∧ Forall2 (λ p p', Particle.z p' = Particle.z p + depthSpeedOf g
                        ∧ Particle.z p < Particle.z p'
                        ∧ Particle.id p' = Particle.id p
                        ∧ Particle.life p' = Particle.life p)
         (particles w) moved
     ∧ particles w' = List.filter alive moved
     ∧ (∀ p, alive p = false
             ↔ Particle.life p <= Particle.z p ∨ Particle.opacity p <= 0.01)
     ∧ (length (particles w') ≤ length (particles w))%nat
     ∧ (Exists (λ p, Particle.life p <= Particle.z p + depthSpeedOf g) (particles w) →
        (length (particles w') < length (particles w))%nat))
  ∧ (noBurstPending w →
     (∀ es, Forall quietFrame es →
        (length (particles (run random es w)) ≤ length (particles w))%nat)
     ∧ ∃ N : nat, ∀ es, Forall quietFrame es → (N ≤ frames es)%nat →
         particles (run random es w) = []).
Proof.
  split.
  - intros a wd ht g m H0 H100 w' moved.
    destruct (depthSpeedOf_bounds g H0 H100) as [Hds _].
    pose proof (advance_deeper (depthSpeedOf g) (particles w) (randomCalls w)) as Hd.
    fold moved in Hd.
    split; [lra|]. split.
    { eapply Forall2_impl; [exact Hd|]. cbn. intros p p' (Hz & Hi & Hl).
      repeat split; try done. rewrite Hz. lra. }
    split; [apply dspProcess_particles|].
    split; [apply dead_spec|].
    split; [apply dspProcess_length|].
    intros Hex. subst w'. rewrite dspProcess_particles. fold moved.
    rewrite <- (advance_length (depthSpeedOf g) (particles w) (randomCalls w)).
    fold moved. apply filter_length_lt.
    clear -Hex Hd. induction Hd as [|p p' ps ps' (Hz & _ & Hl) _ IH].
    + inversion Hex.
    + apply Exists_cons in Hex as [Hp|Hps].
      * apply Exists_cons_hd. apply dead_spec. left. rewrite Hz, Hl. done.
      * apply Exists_cons_tl. by apply IH.
  - intros Hn. split; [|by apply quiet_run_empties].
    intros es Hq. destruct (slack_bound (particles w)) as [B HB].
    destruct (quiet_run es w 0 (B + 1) Hn Hq) as (_ & _ & I3); [| lia | done].
    eapply Forall_impl; [exact HB|]. cbn. intros p Hp.
    change (Qnat 0) with 0. lra.
Qed.

(** *** Timers *)

Lemma init_wf s : timersWf (init s).
Proof. split; cbn; [constructor|constructor|]. intros t Ht. by apply elem_of_nil in Ht. Qed.

Lemma timersWf_ext w w' :
  timers w' = timers w → nextHandle w' = nextHandle w →
  pulseTimeout w' = pulseTimeout w → timersWf w → timersWf w'.
Proof. intros Ht Hn Hp [H1 H2 H3]. split; rewrite ?Ht, ?Hn, ?Hp; done. Qed.

Lemma elem_of_filter_handle (h : positive) (l : list Timer) (t : Timer) :
  t ∈ List.filter (λ t, negb (Pos.eqb (handle t) h)) l ↔ t ∈ l ∧ handle t ≠ h.
Proof.
  rewrite !list_elem_of_In, List.filter_In, negb_true_iff, Pos.eqb_neq. done.
Qed.

Lemma NoDup_filter_handles (f : Timer → bool) (l : list Timer) :
  NoDup (handle <$> l) → NoDup (handle <$> List.filter f l).
Proof.
  induction l as [|x l IH]; cbn; [done|].
  intros Hnd. apply NoDup_cons in Hnd as [Hx Hnd].
  destruct (f x); cbn; [|by apply IH].
  apply NoDup_cons. split; [|by apply IH].
  intros Hin. apply Hx. apply list_elem_of_fmap in Hin as (y & Hy & Hin).
  apply list_elem_of_fmap. exists y. split; [done|].
  apply list_elem_of_In in Hin. apply List.filter_In in Hin as [Hin _].
  by apply list_elem_of_In.
Qed.

Lemma clearTimeout_wf h w : timersWf w → timersWf (clearTimeout h w).
Proof.
  intros [H1 H2 H3]. split; cbn.
  - rewrite List.Forall_forall in *. intros t Ht.
    apply List.filter_In in Ht as [Ht _]. by apply H1.
  - by apply NoDup_filter_handles.
  - intros t Ht. apply elem_of_filter_handle in Ht as [Ht _]. by apply H3.
Qed.

Lemma keptTimers_elem w t : t ∈ keptTimers w → t ∈ timers w.
Proof.
  unfold keptTimers. destruct (pulseTimeout w); [|done].
  intros Ht. by apply elem_of_filter_handle in Ht as [Ht _].
Qed.

Lemma keptTimers_nodup w : NoDup (handle <$> timers w) → NoDup (handle <$> keptTimers w).
Proof.
  unfold keptTimers. destruct (pulseTimeout w); [|done]. apply NoDup_filter_handles.
Qed.

(** The pulse reset is the only timer a transient clears. *)
Lemma keptTimers_burst w t :
  timersWf w → t ∈ timers w → isBurst t = true → t ∈ keptTimers w.
Proof.
  intros [_ _ H3] Ht Hb. unfold keptTimers.
  destruct (pulseTimeout w) as [h|] eqn:E; [|done].
  apply elem_of_filter_handle. split; [done|]. intros <-.
  specialize (H3 t Ht eq_refl). unfold isBurst in Hb. by rewrite H3 in Hb.
Qed.

Lemma keptTimers_pulse w t :
  pulseTimeout w = Some (handle t) → t ∉ keptTimers w.
Proof.
  intros E Ht. unfold keptTimers in Ht. rewrite E in Ht.
  by apply elem_of_filter_handle in Ht as [_ Hne].
Qed.

Lemma onTransient_wf g now hue w : timersWf w → timersWf (onTransient g now hue w).
Proof.
  intros Hwf. destruct (Qlt_le_dec 1 (Settings.mix (settings w))) as [Hmix|Hmix].
  - destruct (onTransient_above_gate g now hue w Hmix) as (Ht & Hp & Hn).
    destruct Hwf as [H1 H2 H3].
    assert (∀ t, t ∈ keptTimers w → (handle t < nextHandle w)%positive) as Hlt.
    { intros t Hk. apply keptTimers_elem in Hk.
      rewrite List.Forall_forall in H1. by apply H1, list_elem_of_In. }
    split; rewrite Ht, ?Hp, ?Hn.
    + apply Forall_app. split.
      * apply Forall_forall. intros t Hk. specialize (Hlt t Hk). lia.
      * repeat constructor; cbn; lia.
    + rewrite fmap_app. apply NoDup_app. split; [by apply keptTimers_nodup|].
      split.
      * intros h Hh Hh'. apply list_elem_of_fmap in Hh as (t & -> & Hk).
        specialize (Hlt t Hk). cbn in Hh'.
        apply elem_of_cons in Hh' as [E|Hh']; [lia|].
        apply elem_of_cons in Hh' as [E|Hh']; [lia|]. by apply elem_of_nil in Hh'.
      * cbn. apply NoDup_cons. split; [|apply NoDup_singleton].
        intros E. apply list_elem_of_singleton in E. lia.
    + intros t Hin [= E]. apply elem_of_app in Hin as [Hk|Hin].
      * specialize (Hlt t Hk). lia.
      * apply elem_of_cons in Hin as [->|Hin]; [done|].
        apply list_elem_of_singleton in Hin as ->. cbn in E. lia.
  - rewrite onTransient_below_gate by done. by apply (timersWf_ext w).
Qed.

Lemma step_wf w e : timersWf w → timersWf (step random w e).
Proof.
  intros Hwf. destruct e as [a wd ht g m|h|s]; cbn [step].
  - destruct (dspProcess_timers a wd ht g m w) as (Ht & Hp & Hn).
    eapply timersWf_ext; [exact Ht|exact Hn|exact Hp|].
    destruct (transientObserved a w); [by apply onTransient_wf|done].
  - unfold fire. destruct (List.find _ _) as [t|]; [|done].
    apply (timersWf_ext (clearTimeout h w)); [..|by apply clearTimeout_wf];
      destruct (callback t) as [|nm g0 sz nw hue]; cbn [runCallback]; try done;
      by destruct (runBurst_timers nm g0 sz nw hue (clearTimeout h w))
        as (? & ? & ?).
  - by apply (timersWf_ext w).
Qed.

Lemma run_wf es w : timersWf w → timersWf (run random es w).
Proof.
  revert w. induction es as [|e es IH]; intros w Hwf; [done|].
  cbn. apply IH. by apply step_wf.
Qed.

Lemma find_by_handle (l : list Timer) (t : Timer) :
  NoDup (handle <$> l) → t ∈ l →
  List.find (λ x, Pos.eqb (handle x) (handle t)) l = Some t.
Proof.
  induction l as [|x l IH]; intros Hnd Ht; [by apply elem_of_nil in Ht|].
  cbn in Hnd. apply NoDup_cons in Hnd as [Hx Hnd]. cbn.
  apply elem_of_cons in Ht as [->|Ht]; [by rewrite Pos.eqb_refl|].
  destruct (Pos.eqb_spec (handle x) (handle t)) as [E|_]; [|by apply IH].
  exfalso. apply Hx. rewrite E. apply list_elem_of_fmap. by exists t.
Qed.

Lemma frame_keeps_burst a wd ht g m w t :
  timersWf w → t ∈ timers w → isBurst t = true →
  t ∈ timers (dspProcess random a wd ht g m w).1.
Proof.
  intros Hwf Ht Hb. destruct (dspProcess_timers a wd ht g m w) as (-> & _).
  destruct (transientObserved a w); [|done].
  destruct (Qlt_le_dec 1 (Settings.mix (settings w))) as [Hmix|Hmix].
  - destruct (onTransient_above_gate g (time a) (baseHueOf m) w Hmix) as (-> & _).
    apply elem_of_app. left. by apply keptTimers_burst.
  - by rewrite onTransient_below_gate.
Qed.

Lemma fire_other_keeps h w t :
  t ∈ timers w → h ≠ handle t → t ∈ timers (fire random h w).
Proof.
  intros Ht Hne. unfold fire. destruct (List.find _ _) as [t'|]; [|done].
  assert (t ∈ timers (clearTimeout h w)) as Hc.
  { cbn. apply elem_of_filter_handle. split; [done|]. congruence. }
  destruct (callback t') as [|nm g0 sz nw hue]; cbn [runCallback]; [done|].
  by destruct (runBurst_timers nm g0 sz nw hue (clearTimeout h w)) as (-> & _).
Qed.

(** C10, as the code has it. In every state a bridge reaches, a burst
    that is scheduled stays pending through every later event but the lapse
    of its own delay, frames that observe a new transient included: only the
    pulse reset recorded in [pulseTimeout] is cleared then. When its delay
    lapses the burst runs, once. *)
Theorem burst_timer_is_never_cleared (es : list Event) (s : Settings.t) (t : Timer) :
  let w := run random es (init s) in
  t ∈ timers w → isBurst t = true →
  (∀ e, e ≠ Elapsed (handle t) → t ∈ timers (step random w e))
  ∧ (∀ a wd ht g m,
       transientObserved a w = true → 1 < Settings.mix (settings w) →
       t ∈ timers (dspProcess random a wd ht g m w).1
       ∧ ∀ t', t' ∈ timers w → pulseTimeout w = Some (handle t') →
           t' ∉ timers (dspProcess random a wd ht g m w).1)
  ∧ fire random (handle t) w
    = runCallback random (callback t) (clearTimeout (handle t) w)
  ∧ t ∉ timers (fire random (handle t) w).
Proof.
  intros w Ht Hb.
  assert (timersWf w) as Hwf by apply run_wf, init_wf.
  split.
  { intros e He. destruct e as [a wd ht g m|h|s']; cbn [step].
    - by apply frame_keeps_burst.
    - apply fire_other_keeps; [done|]. intros ->. done.
    - done. }
  split.
  { intros a wd ht g m Hobs Hmix. split; [by apply frame_keeps_burst|].
    intros t' Ht' Hp Hin.
    destruct (dspProcess_timers a wd ht g m w) as (E & _). rewrite Hobs in E.
    rewrite E in Hin.
    destruct (onTransient_above_gate g (time a) (baseHueOf m) w Hmix) as (E' & _).
    rewrite E' in Hin. apply elem_of_app in Hin as [Hin|Hin].
    - by apply (keptTimers_pulse w t').
    - destruct Hwf as [H1 _ _]. rewrite List.Forall_forall in H1.
      apply list_elem_of_In, H1 in Ht'.
      apply elem_of_cons in Hin as [->|Hin]; [cbn in Ht'; lia|].
      apply list_elem_of_singleton in Hin as ->. cbn in Ht'. lia. }
  assert (fire random (handle t) w
          = runCallback random (callback t) (clearTimeout (handle t) w)) as Hf.
  { unfold fire. rewrite find_by_handle; [done|by destruct Hwf|done]. }
  split; [exact Hf|]. rewrite Hf. intros Hin.
  assert (t ∈ timers (clearTimeout (handle t) w)) as Hc.
  { destruct (callback t) as [|nm g0 sz nw hue]; cbn [runCallback] in Hin; [done|].
    by destruct (runBurst_timers nm g0 sz nw hue (clearTimeout (handle t) w))
      as (<- & _). }
  cbn in Hc. by apply elem_of_filter_handle in Hc as [_ Hne].
Qed.

End Spec.

(** *** The statements at the example bridge *)

Lemma transient_burst_size_at_example :
  (10 ≤ particleCount (Settings.mix (Examples.verb 50) / 100) Examples.low ≤ 40)%Z
  ∧ Examples.pending
      (dspProcess Examples.random (mkAudioSignal 1 true) 640 480 Examples.low None
         (init (Examples.verb 50))).1
    = [(1%positive, false); (2%positive, true)].
Proof.
  assert (transientObserved (mkAudioSignal 1 true) (init (Examples.verb 50)) = true)
    as Hobs by reflexivity.
  pose proof (transient_burst_size Examples.random (mkAudioSignal 1 true) 640 480
                Examples.low None (init (Examples.verb 50)) Hobs) as (_ & H2 & H3).
  split.
  - apply H3; vm_compute; congruence.
  - unfold Examples.pending. rewrite H2; [reflexivity|vm_compute; congruence].
Defined.

(** C7 as stated fails for a mix between 0 and 1: the transient is
    observed, the complexity is 'low', and no burst is scheduled, so that no
    particle is ever pushed for it. *)
Lemma transient_with_small_mix_schedules_nothing :
  transientObserved (mkAudioSignal 1 true) (init (Examples.verb 0.5)) = true
  ∧ (0 < Settings.mix (Examples.verb 0.5) ∧ Settings.mix (Examples.verb 0.5) <= 100)
  ∧ isLow Examples.low = true
  ∧ timers (dspProcess Examples.random (mkAudioSignal 1 true) 640 480 Examples.low None
              (init (Examples.verb 0.5))).1 = []
  ∧ particles
      (run Examples.random
         [Examples.transient 1; Elapsed 1; Elapsed 2; Examples.silence 1.2]
         (init (Examples.verb 0.5))) = [].
Proof. repeat split; vm_compute; congruence. Qed.

Lemma particles_capped_at_300_at_example :
  (length (particles
             (run Examples.random
                [Examples.transient 1; Examples.transient 1.11; Elapsed 2; Elapsed 4]
                (init (Examples.verb 50)))) ≤ 300)%nat.
Proof.
  assert (length (particles (init (Examples.verb 50))) ≤ 300)%nat as H by (cbn; lia).
  exact (proj1 (particles_capped_at_300 Examples.random
                  [Examples.transient 1; Examples.transient 1.11; Elapsed 2; Elapsed 4]
                  (init (Examples.verb 50)) H)).
Defined.

Lemma particles_sink_and_expire_at_example :
  0 < depthSpeedOf Examples.low
  ∧ ∃ N : nat, ∀ es, Forall quietFrame es → (N ≤ frames es)%nat →
      particles
        (run Examples.random es
           (run Examples.random [Examples.transient 1; Elapsed 2; Elapsed 1]
              (init (Examples.verb 50)))) = [].
Proof.
  pose proof (particles_sink_and_expire Examples.random
                (run Examples.random [Examples.transient 1; Elapsed 2; Elapsed 1]
                   (init (Examples.verb 50)))) as [H1 H2].
  split.
  - apply (H1 (mkAudioSignal 1 false) 640 480 Examples.low None); by vm_compute.
  - apply H2. unfold noBurstPending.
    replace (timers _) with (@nil Timer) by reflexivity. constructor.
Defined.

(** C9 as stated fails while a burst is pending: after the transient at
    time 1 the list is empty, no further transient occurs, and the list
    grows to 25 particles when the delay of the burst lapses. *)
Lemma pending_burst_grows_the_list :
  particles (run Examples.random [Examples.transient 1] (init (Examples.verb 50))) = []
  ∧ transients (mkAudioSignal 1.05 false) = false
  ∧ length
      (particles
         (run Examples.random [Examples.silence 1.05; Elapsed 2]
            (run Examples.random [Examples.transient 1] (init (Examples.verb 50)))))
    = 25%nat.
Proof. repeat split; vm_compute; reflexivity. Qed.

Lemma burst_timer_is_never_cleared_at_example :
  Examples.firstBurst
  ∈ timers
      (step Examples.random
         (run Examples.random [Examples.transient 1] (init (Examples.verb 50)))
         (Examples.transient 1.11)).
Proof.
  assert (Examples.firstBurst
          ∈ timers (run Examples.random [Examples.transient 1]
                      (init (Examples.verb 50)))) as Hin.
  { replace (timers _)
      with [mkTimer 1 100 PulseOff; Examples.firstBurst] by reflexivity.
    apply elem_of_cons. right. apply elem_of_cons. by left. }
  assert (isBurst Examples.firstBurst = true) as Hb by reflexivity.
  pose proof (burst_timer_is_never_cleared Examples.random [Examples.transient 1]
                (Examples.verb 50) Examples.firstBurst Hin Hb) as (H & _).
  apply H. unfold Examples.transient. discriminate.
Defined.

(** C10 as stated fails: the burst scheduled by the transient at time 1
    (handle 2, delay 150 ms) is still pending after the transient at time
    1.11 has been observed, and when it elapses it pushes its 25 particles
    into a list that was empty. *)
Lemma stale_burst_fires_after_new_transient :
  Examples.pending
    (run Examples.random [Examples.transient 1] (init (Examples.verb 50)))
  = [(1%positive, false); (2%positive, true)]
  ∧ Examples.pending
      (run Examples.random [Examples.transient 1; Examples.transient 1.11]
         (init (Examples.verb 50)))
    = [(2%positive, true); (3%positive, false); (4%positive, true)]
  ∧ particles
      (run Examples.random [Examples.transient 1; Examples.transient 1.11]
         (init (Examples.verb 50))) = []
  ∧ length
      (particles
         (run Examples.random [Examples.transient 1; Examples.transient 1.11; Elapsed 2]
            (init (Examples.verb 50)))) = 25%nat.
Proof. repeat split; vm_compute; reflexivity. Qed.

End MixxVerbSpec.

(** ** The shell around the handlers *)

Module ShellSpec.
Import Js App JsFacts AppSpec Shell.

Lemma valueChange_settings a p v s :
  settingsOf (handleValueChange a p v s).1 a = <[p := VNumber v]> (settingsOf s a).
Proof.
  unfold handleValueChange, setPluginState. cbn [fst].
  rewrite update_settings_self. cbn [partialOf].
  fold (settingsOf s a). apply merge_insert_self.
Qed.

Lemma set_midiLearnTarget_settings t s k :
  settingsOf (set_midiLearnTarget t s) k = settingsOf s k.
Proof. done. Qed.

Lemma linksTo_zero t links : linksTo t links = 0%nat → hasLinkTo t links = false.
Proof.
  unfold hasLinkTo, linksTo. induction links as [|l links IH]; cbn; [done|].
  destruct (String.eqb (to l) t); cbn; [done|]. exact IH.
Qed.

(** With at most one link per target, a link to [t] that is present is the
    only link to [t]. *)
Lemma only_link_to (f t : PluginKey) links :
  (linksTo t links ≤ 1)%nat →
  (∃ x, x ∈ links ∧ from x = f ∧ to x = t) →
  ∀ y, y ∈ links → to y = t → from y = f.
Proof.
  unfold linksTo. induction links as [|z links IH]; intros Hc (x & Hx & Hf & Ht) y Hy Hty.
  { by apply elem_of_nil in Hx. }
  cbn in Hc. destruct (String.eqb_spec (to z) t) as [Ez|Ez]; cbn in Hc.
  - assert (linksTo t links = 0%nat) as H0 by (unfold linksTo; lia).
    apply linksTo_zero in H0. unfold hasLinkTo in H0.
    assert (∀ w, w ∈ links → to w ≠ t) as Hnone.
    { intros w Hw E. apply not_true_iff_false in H0. apply H0.
      apply existsb_exists. exists w. split; [by apply list_elem_of_In|].
      by apply String.eqb_eq. }
    apply elem_of_cons in Hx as [->|Hx]; [|by destruct (Hnone x Hx)].
    apply elem_of_cons in Hy as [->|Hy]; [done|by destruct (Hnone y Hy)].
  - apply elem_of_cons in Hx as [->|Hx]; [done|].
    apply elem_of_cons in Hy as [->|Hy]; [done|].
    apply IH; [done|by exists x|done..].
Qed.

Lemma elem_of_removed l links x :
  x ∈ List.filter (λ link, negb (String.eqb (from link) (from l)
                                 && String.eqb (to link) (to l))) links
  ↔ x ∈ links ∧ ¬ (from x = from l ∧ to x = to l).
Proof.
  rewrite !list_elem_of_In, List.filter_In, negb_true_iff, andb_false_iff.
  rewrite !String.eqb_neq. split; intros [H1 H2]; (split; [done|]).
  - intros [??]. by destruct H2.
  - destruct (decide (from x = from l)); [|by left].
    destruct (decide (to x = to l)); [|by right]. by destruct H2.
Qed.

Section Spec.
Variable isControlChange : MIDIMessageEvent → bool.
Variable canBeSidechainTarget : PluginKey → bool.

(** X2. The learn indicator of a knob follows the toggle: after
    [onMidiLearn] for parameter [p] of the active plug-in, parameter [q]
    shows as learning exactly when [q] is [p] and [p] was not learning
    before. A control-change message from a port clears every indicator,
    and so does a change of the MIDI input. *)
Theorem learn_indicator_follows_toggle (a : PluginKey) (p : string) (lo hi : Q)
    (s : AppState) :
  (∀ q, isLearning a (onMidiLearn a p lo hi s).1 q
        = negb (isLearning a s p) && String.eqb p q)
  ∧ (∀ m q, isControlChange m = true → is_Some (target m) →
       isLearning a (handleMidiMessage isControlChange m s).1 q = false)
  ∧ (∀ id q, isLearning a (onMidiInputChange id s).2 q = false).
Proof.
  split; [|split].
  - intros q. unfold onMidiLearn, handleMidiLearnStart, isLearning.
    destruct (midiLearnTarget s) as [t|]; cbn.
    + destruct (String.eqb_spec (pluginKey t) a) as [Ea|Ea];
        destruct (String.eqb_spec (paramName t) p) as [Ep|Ep]; cbn;
        rewrite ?String.eqb_refl; done.
    + by rewrite String.eqb_refl.
  - intros m q Hcc [d Hd]. unfold handleMidiMessage. rewrite Hcc, Hd. cbn.
    destruct (midiLearnTarget s) as [t|] eqn:E; [done|].
    destruct (midiMappings s !! _); cbn; unfold isLearning.
    + by rewrite handlePluginStateChange_allocs; cbn; rewrite E.
    + by rewrite E.
  - done.
Qed.

(** X3. A knob of the panel writes its parameter and nothing else: the
    settings of the plug-in become the old ones with [param] set to the
    value, the other plug-ins keep their settings objects, the later of two
    writes to one parameter wins, and writes to two parameters give the same
    settings in either order. *)
Theorem handleValueChange_writes_one_parameter (a : PluginKey) (p : string) (v : Q)
    (s : AppState) :
  settingsOf (handleValueChange a p v s).1 a = <[p := VNumber v]> (settingsOf s a)
  ∧ (∀ B, B ≠ a →
       get (statesOf (handleValueChange a p v s).1) B = get (statesOf s) B)
  ∧ (∀ v', settingsOf (handleValueChange a p v' (handleValueChange a p v s).1).1 a
           = settingsOf (handleValueChange a p v' s).1 a)
  ∧ (∀ p' v', p ≠ p' →
       settingsOf (handleValueChange a p' v' (handleValueChange a p v s).1).1 a
       = settingsOf (handleValueChange a p v (handleValueChange a p' v' s).1).1 a).
Proof.
  split; [apply valueChange_settings|]. split.
  { intros B HB. unfold handleValueChange, setPluginState. cbn [fst].
    by apply update_ref_other. }
  split.
  - intros v'. rewrite !valueChange_settings. apply insert_insert_eq.
  - intros p' v' Hne. rewrite !valueChange_settings. by apply insert_insert_ne.
Qed.

(** X4. Learn, then play: from the idle state, arming a parameter, moving
    a controller once and moving it again sets the parameter to the scaled
    value of the second movement; the first movement is only captured. *)
Theorem learn_then_play (k : PluginKey) (p : string) (lo hi : Q)
    (m1 m2 : MIDIMessageEvent) (d : string) (s : AppState) :
  midiLearnTarget s = None →
  isControlChange m1 = true → target m1 = Some d →
  isControlChange m2 = true → target m2 = Some d → cc m2 = cc m1 →
  let s1 := (onMidiLearn k p lo hi s).1 in
  let s2 := (handleMidiMessage isControlChange m1 s1).1 in
  let s3 := (handleMidiMessage isControlChange m2 s2).1 in
  settingsOf s2 k = settingsOf s k
  ∧ settingsOf s3 k
    = <[p := VNumber (lo + (inject_Z (Z.of_N (value m2)) / 127) * (hi - lo))%Q]>
        (settingsOf s k)
  ∧ midiLearnTarget s3 = None.
Proof.
  intros Hidle Hc1 Ht1 Hc2 Ht2 Hcc s1 s2 s3.
  assert (s1 = set_midiLearnTarget (Some (mkMidiMapping k p lo hi)) s) as E1.
  { subst s1. unfold onMidiLearn, handleMidiLearnStart. by rewrite Hidle. }
  assert (s2 = set_midiLearnTarget None
                 (set_midiMappings
                    (<[mappingKey d (cc m1) := mkMidiMapping k p lo hi]> (midiMappings s1))
                    s1)) as E2.
  { subst s2. unfold handleMidiMessage. rewrite Hc1, Ht1, E1. done. }
  split; [by rewrite E2, E1|].
  assert (handleMidiMessage isControlChange m2 s2
          = (handlePluginStateChange k
               (Updater (λ h prevState,
                  <[p := VNumber (scaledValue (mkMidiMapping k p lo hi) (value m2))]>
                    (spread h prevState))) s2, [])) as E3.
  { apply (handleMidiMessage_idle_mapped isControlChange m2 d (mkMidiMapping k p lo hi));
      [done|done|by rewrite E2|].
    rewrite Hcc, E2. cbn. apply lookup_insert_eq. }
  subst s3. rewrite E3. cbn [fst]. split.
  - rewrite update_settings_self. cbn [partialOf].
    fold (settingsOf s2 k). rewrite merge_insert_self.
    by rewrite E2, E1.
  - rewrite handlePluginStateChange_allocs. by rewrite E2.
Qed.

(** *** Sidechain links *)

(** X6. Adding a link to a free target and removing it again gives back
    the list of links there was. *)
Theorem addLink_then_removeLink_restores (l : SidechainLink) (s : AppState) :
  hasLinkTo (to l) (sidechainLinks s) = false →
  sidechainLinks (handleRemoveLink canBeSidechainTarget l (handleAddLink l s).1).1
  = sidechainLinks s.
Proof.
  intros Hfree. rewrite handleRemoveLink_links, handleAddLink_links, Hfree.
  rewrite List.filter_app. cbn. rewrite !String.eqb_refl. cbn.
  rewrite app_nil_r. apply filter_absent.
  unfold hasLink. unfold hasLinkTo in Hfree.
  apply not_true_iff_false. intros H. apply not_true_iff_false in Hfree. apply Hfree.
  apply existsb_exists in H as (x & Hx & Hm). apply existsb_exists.
  exists x. split; [done|]. by apply andb_true_iff in Hm as [_ ?].
Qed.

(** X7. [handleRemoveLink] takes out every link with the given source and
    target and keeps the others; where each target had at most one link and
    the link was there, the target is free afterwards, so that it no longer
    shows as a sidechain target and a link to it can be added again; and a
    target that can be one has its [sidechainActive] flag cleared. *)
Theorem removeLink_frees_the_target (l : SidechainLink) (s : AppState) :
  let s' := (handleRemoveLink canBeSidechainTarget l s).1 in
  (∀ x, x ∈ sidechainLinks s'
        ↔ x ∈ sidechainLinks s ∧ ¬ (from x = from l ∧ to x = to l))
  ∧ hasLink l (sidechainLinks s') = false
  ∧ (oneSourcePerTarget (sidechainLinks s) → hasLink l (sidechainLinks s) = true →
       isSidechainTarget (to l) s' = false
       ∧ ∀ l', to l' = to l →
           sidechainLinks (handleAddLink l' s').1 = sidechainLinks s' ++ [l'])
  ∧ (canBeSidechainTarget (to l) = true →
       settingsOf s' (to l)
       = <["sidechainActive" := VBool false]> (settingsOf s (to l))).
Proof.
  intros s'. subst s'.
  assert (∀ x, x ∈ sidechainLinks (handleRemoveLink canBeSidechainTarget l s).1
               ↔ x ∈ sidechainLinks s ∧ ¬ (from x = from l ∧ to x = to l)) as Hin.
  { intros x. rewrite handleRemoveLink_links. apply elem_of_removed. }
  split; [exact Hin|]. split.
  { apply not_true_iff_false. intros H. unfold hasLink in H.
    apply existsb_exists in H as (x & Hx & Hm).
    apply list_elem_of_In, Hin in Hx as [_ Hx]. apply Hx.
    apply andb_true_iff in Hm as [H1 H2].
    by apply String.eqb_eq in H1, H2. }
  split.
  - intros Hinv Hpresent.
    assert (isSidechainTarget (to l) (handleRemoveLink canBeSidechainTarget l s).1
            = false) as Hfree.
    { apply not_true_iff_false. intros H. unfold isSidechainTarget in H.
      apply existsb_exists in H as (y & Hy & Hty). apply String.eqb_eq in Hty.
      apply list_elem_of_In, Hin in Hy as [Hy Hne]. apply Hne. split; [|done].
      apply (only_link_to (from l) (to l) (sidechainLinks s)); [apply Hinv| |done..].
      unfold hasLink in Hpresent. apply existsb_exists in Hpresent as (x & Hx & Hm).
      apply andb_true_iff in Hm as [H1 H2]. apply String.eqb_eq in H1, H2.
      exists x. split; [by apply list_elem_of_In|done]. }
    split; [exact Hfree|]. intros l' Hl'. rewrite handleAddLink_links.
    unfold hasLinkTo. unfold isSidechainTarget in Hfree. by rewrite Hl', Hfree.
  - intros Hc. unfold handleRemoveLink. rewrite Hc. cbn [fst].
    rewrite update_settings_self. cbn [partialOf]. unfold merge.
    symmetry. apply insert_union_singleton_l.
Qed.

(** *** Runs of actions *)

Lemma dispatch_heap_old s a l o :
  heap s !! l = Some o →
  heap (dispatch isControlChange canBeSidechainTarget s a) !! l = Some o.
Proof.
  intros Hl. destruct a as [k u|k p v|m|k p lo hi|id|n|x|x]; cbn [dispatch].
  - by apply update_heap_old.
  - unfold handleValueChange, setPluginState. cbn [fst]. by apply update_heap_old.
  - unfold handleMidiMessage. destruct (isControlChange m); [|done]. cbn.
    destruct (target m); [|done]. destruct (midiLearnTarget s); [done|].
    destruct (midiMappings s !! _); [|done]. cbn. by apply update_heap_old.
  - unfold handleMidiLearnStart. destruct (midiLearnTarget s); [|done].
    by destruct (_ && _).
  - done.
  - unfold handleLoadPreset. by destruct (List.find _ _).
  - unfold handleAddLink. by destruct (existsb _ _).
  - unfold handleRemoveLink. cbn [fst].
    destruct (canBeSidechainTarget (to x)); [|done]. by apply update_heap_old.
Qed.

Lemma dispatch_presets s a :
  presets (dispatch isControlChange canBeSidechainTarget s a) = presets s.
Proof.
  destruct a as [k u|k p v|m|k p lo hi|id|n|x|x]; cbn [dispatch].
  - by rewrite handlePluginStateChange_allocs.
  - unfold handleValueChange, setPluginState. cbn [fst].
    by rewrite handlePluginStateChange_allocs.
  - unfold handleMidiMessage. destruct (isControlChange m); [|done]. cbn.
    destruct (target m); [|done]. destruct (midiLearnTarget s); [done|].
    destruct (midiMappings s !! _); [|done]. cbn.
    by rewrite handlePluginStateChange_allocs.
  - unfold handleMidiLearnStart. destruct (midiLearnTarget s); [|done].
    by destruct (_ && _).
  - done.
  - unfold handleLoadPreset. by destruct (List.find _ _).
  - unfold handleAddLink. by destruct (existsb _ _).
  - unfold handleRemoveLink. cbn [fst].
    destruct (canBeSidechainTarget (to x)); [|done].
    by rewrite handlePluginStateChange_allocs.
Qed.

Lemma runActions_heap_old acts s l o :
  heap s !! l = Some o →
  heap (runActions isControlChange canBeSidechainTarget acts s) !! l = Some o.
Proof.
  revert s. induction acts as [|a acts IH]; intros s Hl; [done|].
  cbn. apply IH. by apply dispatch_heap_old.
Qed.

Lemma runActions_presets acts s :
  presets (runActions isControlChange canBeSidechainTarget acts s) = presets s.
Proof.
  revert s. induction acts as [|a acts IH]; intros s; [done|].
  cbn. etrans; [apply IH|apply dispatch_presets].
Qed.

(** X8. No handler writes to an object that exists: along every run of
    parameter updates, knob movements, MIDI messages, learn toggles, input
    changes, preset loads and link changes, every object of the heap keeps
    its contents, and the list of presets stays as it was. *)
Theorem handlers_never_write_objects (acts : list Action) (s : AppState) :
  (∀ l o, heap s !! l = Some o →
     heap (runActions isControlChange canBeSidechainTarget acts s) !! l = Some o)
  ∧ presets (runActions isControlChange canBeSidechainTarget acts s) = presets s.
Proof.
  split; [intros l o; apply runActions_heap_old|apply runActions_presets].
Qed.

(** *** Presets *)

Lemma find_savePreset_eq n st ps :
  List.find (λ q, String.eqb (name q) n) (savePreset n st ps) = Some (mkPreset n st).
Proof.
  unfold savePreset. induction ps as [|p ps IH]; cbn.
  - by rewrite String.eqb_refl.
  - destruct (String.eqb (name p) n) eqn:E; cbn; [done|]. by rewrite E.
Qed.

Lemma find_filter_other n m ps :
  m ≠ n →
  List.find (λ q, String.eqb (name q) n)
    (List.filter (λ p, negb (String.eqb (name p) m)) ps)
  = List.find (λ q, String.eqb (name q) n) ps.
Proof.
  intros Hne. induction ps as [|p ps IH]; [done|]. cbn.
  destruct (String.eqb (name p) m) eqn:Em; cbn.
  - apply String.eqb_eq in Em.
    destruct (String.eqb (name p) n) eqn:En; [|done].
    apply String.eqb_eq in En. congruence.
  - destruct (String.eqb (name p) n); [done|exact IH].
Qed.

Lemma find_savePreset_other n m st ps :
  m ≠ n →
  List.find (λ q, String.eqb (name q) n) (savePreset m st ps)
  = List.find (λ q, String.eqb (name q) n) ps.
Proof.
  intros Hne. unfold savePreset.
  rewrite <- (find_filter_other n m ps Hne).
  induction (List.filter _ ps) as [|p l IH]; cbn.
  - destruct (String.eqb m n) eqn:E; [|done]. apply String.eqb_eq in E. done.
  - by destruct (String.eqb (name p) n).
Qed.

Lemma find_deletePreset_eq n ps :
  List.find (λ q, String.eqb (name q) n) (deletePreset n ps) = None.
Proof.
  unfold deletePreset. induction ps as [|p ps IH]; [done|]. cbn.
  destruct (String.eqb (name p) n) eqn:E; cbn; [done|]. by rewrite E.
Qed.

Lemma find_existsb n ps p :
  List.find (λ q, String.eqb (name q) n) ps = Some p →
  existsb (λ q, String.eqb (name q) n) ps = true.
Proof.
  induction ps as [|q ps IH]; [done|]. cbn.
  destruct (String.eqb (name q) n); [done|]. exact IH.
Qed.

(** What a session keeps while the preset [n] is neither replaced nor
    deleted. *)
Lemma dispatchSession_keeps n p s0 s a :
  replaces n a = false →
  (∀ l o, heap s0 !! l = Some o → heap s !! l = Some o) →
  List.find (λ q, String.eqb (name q) n) (presets s) = Some p →
  (∀ l o, heap s0 !! l = Some o
     → heap (dispatchSession isControlChange canBeSidechainTarget s a) !! l = Some o)
  ∧ List.find (λ q, String.eqb (name q) n)
      (presets (dispatchSession isControlChange canBeSidechainTarget s a)) = Some p.
Proof.
  intros Hr Hh Hp. destruct a as [a|[m|] c|m c]; cbn [dispatchSession].
  - split; [intros l o Hl; by apply dispatch_heap_old, Hh|].
    by rewrite dispatch_presets.
  - unfold handleSavePreset. destruct (String.eqb m ""); [done|].
    destruct (existsb _ (presets s) && negb c) eqn:Ea; [done|].
    cbn. split; [done|].
    destruct (decide (m = n)) as [->|Hne]; [|by rewrite find_savePreset_other].
    cbn in Hr. rewrite String.eqb_refl in Hr. cbn in Hr. subst c.
    by rewrite (find_existsb _ _ _ Hp) in Ea.
  - done.
  - unfold handleDeletePreset. destruct c; [|done]. cbn. split; [done|].
    cbn in Hr. rewrite andb_true_r in Hr. apply String.eqb_neq in Hr.
    unfold deletePreset. by rewrite find_filter_other.
Qed.

Lemma runSession_keeps n p s0 acts s :
  Forall (λ a, replaces n a = false) acts →
  (∀ l o, heap s0 !! l = Some o → heap s !! l = Some o) →
  List.find (λ q, String.eqb (name q) n) (presets s) = Some p →
  (∀ l o, heap s0 !! l = Some o
     → heap (runSession isControlChange canBeSidechainTarget acts s) !! l = Some o)
  ∧ List.find (λ q, String.eqb (name q) n)
      (presets (runSession isControlChange canBeSidechainTarget acts s)) = Some p.
Proof.
  revert s. induction acts as [|a acts IH]; intros s Hacts Hh Hp; [done|].
  apply Forall_cons in Hacts as [Ha Hacts]. cbn.
  destruct (dispatchSession_keeps n p s0 s a Ha Hh Hp) as [Hh' Hp'].
  by apply IH.
Qed.

(** X9. Saving a preset and loading it gives the settings back. After
    [handleSavePreset] has saved under the name [n] in a state, and whatever
    the handlers do next (parameter updates, knob movements, MIDI messages,
    learn toggles, input changes, loads of any preset, link changes, saves
    and deletes of presets, confirmed or declined) as long as no confirmed
    save under [n] and no confirmed delete of [n] is among them, loading [n]
    restores the mapping and the settings of every plug-in as they were at
    the save. A confirmed delete of [n] leaves nothing to load. *)
Theorem preset_restores_snapshot (acts : list SessionAction) (n : string)
    (confirmed : bool) (s0 : AppState) :
  n ≠ "" →
  (hasPreset n s0 = true → confirmed = true) →
  closed s0 →
  Forall (λ a, replaces n a = false) acts →
  let s1 := (handleSavePreset (Some n) confirmed s0).1 in
  let s := runSession isControlChange canBeSidechainTarget acts s1 in
  let s' := (handleLoadPreset n s).1 in
  (pluginStates s' = pluginStates s0
   ∧ statesOf s' = statesOf s0
   ∧ ∀ k, settingsOf s' k = settingsOf s0 k)
  ∧ (handleLoadPreset n (handleDeletePreset n true s).1).1
    = (handleDeletePreset n true s).1.
Proof.
  intros Hn Hc [[m Hm] Hal] Hacts s1 s s'.
  assert (s1 = set_presets (savePreset n (pluginStates s0) (presets s0)) s0) as E1.
  { subst s1. unfold handleSavePreset.
    apply String.eqb_neq in Hn. rewrite Hn.
    fold (hasPreset n s0). destruct (hasPreset n s0); [|done].
    by rewrite Hc. }
  destruct (runSession_keeps n (mkPreset n (pluginStates s0)) s0 acts s1 Hacts)
    as [Hold Hfind].
  { intros l o Hl. by rewrite E1. }
  { rewrite E1. cbn. apply find_savePreset_eq. }
  fold s in Hold, Hfind.
  split.
  - assert (s' = set_pluginStates (heap s) (pluginStates s0) s) as E.
    { subst s'. unfold handleLoadPreset. by rewrite Hfind. }
    assert (∀ l o, heap s0 !! l = Some o → heap s' !! l = Some o) as Hold'.
    { intros l o Hl. rewrite E. cbn [heap set_pluginStates]. by apply Hold. }
    assert (statesOf s' = statesOf s0) as Hs.
    { unfold statesOf.
      replace (pluginStates s') with (pluginStates s0) by (by rewrite E).
      cbn [spread]. by rewrite (Hold' _ _ Hm), Hm. }
    split; [by rewrite E|]. split; [exact Hs|].
    intros k. unfold settingsOf. rewrite Hs.
    destruct (get (statesOf s0) k) as [| | | | |l] eqn:Ek; try done.
    destruct (Hal k l Ek) as [o Ho]. cbn [spread].
    by rewrite (Hold' _ _ Ho), Ho.
  - unfold handleDeletePreset, handleLoadPreset. cbn.
    by rewrite find_deletePreset_eq.
Qed.

(** X10. Messages that are no control changes, or that come from no
    port, change nothing, however many arrive and whether or not a learn
    target is armed. *)
Theorem other_messages_are_ignored (ms : list MIDIMessageEvent) (s : AppState) :
  Forall (λ m, isControlChange m = false ∨ target m = None) ms →
  runActions isControlChange canBeSidechainTarget (DoMidiMessage <$> ms) s = s.
Proof.
  revert s. induction ms as [|m ms IH]; intros s Hms; [done|].
  apply Forall_cons in Hms as [Hm Hms]. cbn.
  replace (handleMidiMessage isControlChange m s).1 with s; [by apply IH|].
  unfold handleMidiMessage. destruct Hm as [->|Hm]; [done|].
  rewrite Hm. by destruct (isControlChange m).
Qed.

End Spec.

(** *** The statements at the example sessions *)

Lemma learn_then_play_at_example :
  ∃ q, settingsOf
         (handleMidiMessage Examples.isControlChange (Examples.message 7 127)
            (handleMidiMessage Examples.isControlChange (Examples.message 7 5)
               (onMidiLearn "reverb" "size" 20 60 Examples.session).1).1).1
         "reverb" !! "size" = Some (VNumber q)
       ∧ (q == 60)%Q.
Proof.
  pose proof (learn_then_play Examples.isControlChange "reverb" "size" 20 60
                (Examples.message 7 5) (Examples.message 7 127) "dev1"
                Examples.session eq_refl eq_refl eq_refl eq_refl eq_refl eq_refl)
    as (_ & H & _).
  cbv zeta in H. rewrite H. eexists. split; [apply lookup_insert_eq|].
  by vm_compute.
Defined.

Lemma addLink_then_removeLink_restores_at_example :
  sidechainLinks
    (handleRemoveLink Examples.canBeSidechainTarget (mkSidechainLink "gate" "comp")
       (handleAddLink (mkSidechainLink "gate" "comp") Examples.session).1).1
  = [].
Proof.
  exact (addLink_then_removeLink_restores Examples.canBeSidechainTarget
           (mkSidechainLink "gate" "comp") Examples.session eq_refl).
Defined.

Lemma preset_restores_snapshot_at_example :
  settingsOf
    (handleLoadPreset "P1"
       (runSession Examples.isControlChange Examples.canBeSidechainTarget
          [Handler (DoValueChange "reverb" "mix" 75);
           DoSavePreset (Some "P1"%string) false;
           DoSavePreset (Some "P2"%string) true;
           Handler (DoMidiMessage (Examples.message 10 64));
           DoDeletePreset "P2" true;
           Handler (DoRemoveLink (mkSidechainLink "gate" "comp"))]
          (handleSavePreset (Some "P1"%string) false Examples.session).1)).1 "reverb"
  = Examples.reverb.
Proof.
  assert (closed Examples.session) as Hc.
  { split; [by eexists|]. intros k l Hl.
    assert (statesOf Examples.session
            = {[ "reverb" := VRef 2%positive; "comp" := VRef 3%positive ]}) as E
      by reflexivity.
    rewrite E in Hl. unfold get in Hl.
    destruct (decide (k = "reverb")) as [->|Hr].
    { rewrite lookup_insert_eq in Hl. injection Hl as <-. by eexists. }
    rewrite lookup_insert_ne in Hl by done.
    destruct (decide (k = "comp")) as [->|Hc].
    { rewrite lookup_singleton_eq in Hl. injection Hl as <-. by eexists. }
    rewrite lookup_singleton_ne in Hl by done. discriminate Hl. }
  pose proof (preset_restores_snapshot Examples.isControlChange
                Examples.canBeSidechainTarget
                [Handler (DoValueChange "reverb" "mix" 75);
                 DoSavePreset (Some "P1"%string) false;
                 DoSavePreset (Some "P2"%string) true;
                 Handler (DoMidiMessage (Examples.message 10 64));
                 DoDeletePreset "P2" true;
                 Handler (DoRemoveLink (mkSidechainLink "gate" "comp"))]
                "P1" false Examples.session)
    as H.
  destruct H as ((_ & _ & H) & _).
  - discriminate.
  - discriminate.
  - exact Hc.
  - repeat constructor.
  - rewrite H. reflexivity.
Defined.

Lemma other_messages_are_ignored_at_example :
  runActions Examples.isControlChange Examples.canBeSidechainTarget
    (DoMidiMessage <$> [Demo.noteOn; Demo.noteOn]) Examples.armed
  = Examples.armed.
Proof.
  apply other_messages_are_ignored.
  repeat constructor.
Defined.

End ShellSpec.

(** ** What the bridge keeps along every run *)

Module BridgeSpec.
Import MixxVerb MixxVerbSpec BridgeInvariants.

Local Open Scope Q_scope.

Lemma ascending_weaken lo lo' ids : (lo' ≤ lo)%Z → ascending lo ids → ascending lo' ids.
Proof. destruct ids as [|i ids]; cbn; [done|]. intros ? [??]. split; [lia|done]. Qed.

Lemma ascending_above lo ids : ascending lo ids → Forall (λ i, (lo < i)%Z) ids.
Proof.
  revert lo. induction ids as [|i ids IH]; intros lo; cbn; [constructor|].
  intros [Hi Hr]. constructor; [done|].
  eapply Forall_impl; [by apply IH|]. cbv beta. intros; lia.
Qed.

Lemma ascending_NoDup lo ids : ascending lo ids → NoDup ids.
Proof.
  revert lo. induction ids as [|i ids IH]; intros lo; cbn; [constructor|].
  intros [Hi Hr]. apply NoDup_cons. split; [|by eapply IH].
  intros Hin. apply ascending_above in Hr. rewrite Forall_forall in Hr.
  specialize (Hr i Hin). lia.
Qed.

Lemma ascending_filter (f : Particle.t → bool) lo ps :
  ascending lo (Particle.id <$> ps) → ascending lo (Particle.id <$> List.filter f ps).
Proof.
  revert lo. induction ps as [|p ps IH]; intros lo; cbn; [done|].
  intros [Hp Hr]. destruct (f p); cbn.
  - split; [done|by apply IH].
  - apply (ascending_weaken (Particle.id p)); [lia|by apply IH].
Qed.

Lemma ascending_drop n lo (ps : list Particle.t) :
  ascending lo (Particle.id <$> ps) → ascending lo (Particle.id <$> drop n ps).
Proof.
  revert lo ps. induction n as [|n IH]; intros lo [|p ps]; cbn; try done.
  intros [Hp Hr]. apply (ascending_weaken (Particle.id p)); [lia|by apply IH].
Qed.

Lemma ascending_app lo c ids1 ids2 :
  (lo ≤ c)%Z → ascending lo ids1 → Forall (λ i, (i ≤ c)%Z) ids1 →
  ascending c ids2 → ascending lo (ids1 ++ ids2).
Proof.
  revert lo. induction ids1 as [|i ids1 IH]; intros lo Hlo H1 Hc H2; cbn.
  - by apply (ascending_weaken c).
  - destruct H1 as [Hi H1]. apply Forall_cons in Hc as [Hic Hc].
    split; [done|]. by apply IH.
Qed.

Section Spec.
Variable random : nat → Q.

Lemma advance_ids ds ps r :
  Particle.id <$> (advance random ds ps r).1 = Particle.id <$> ps.
Proof.
  revert r. induction ps as [|p ps IH]; intros r; cbn; [done|].
  specialize (IH (r + 3)%nat).
  destruct (advance random ds ps (r + 3)) as [rest r']. cbn in *. by rewrite IH.
Qed.

(** The ids a burst hands out are the numbers that follow the counter. *)
Lemma spawn_ids n size now hue c r :
  ascending c (Particle.id <$> (spawn random n size now hue c r).1.1)
  ∧ Forall (λ p, (Particle.id p ≤ (spawn random n size now hue c r).1.2)%Z)
      (spawn random n size now hue c r).1.1
  ∧ (spawn random n size now hue c r).1.2 = (c + Z.of_nat n)%Z.
Proof.
  revert c r. induction n as [|n IH]; intros c r.
  { cbn. split; [done|]. split; [constructor|lia]. }
  cbn [spawn]. specialize (IH (c + 1)%Z (r + 5)%nat).
  destruct (spawn random n size now hue (c + 1) (r + 5)) as [[ps c'] r'].
  cbn in *. destruct IH as (Ha & Hf & Hc). split; [split; [lia|done]|].
  split; [|lia]. constructor; [cbn; lia|done].
Qed.

Lemma step_idsAscending w e : idsAscending w → idsAscending (step random w e).
Proof.
  intros (H0 & Ha & Hf). destruct e as [a wd ht g m|h|s]; cbn [step].
  - rewrite dspProcess_state. unfold idsAscending.
    cbn [particles particleIdCounter set_particles].
    split; [done|]. split.
    + apply ascending_filter. by rewrite advance_ids.
    + apply Forall_forall. intros p Hp.
      apply list_elem_of_In, List.filter_In in Hp as [Hp _].
      apply list_elem_of_In in Hp.
      assert (Particle.id p ∈ Particle.id <$> (advance random (depthSpeedOf g)
                                                  (particles w) (randomCalls w)).1) as Hi.
      { apply list_elem_of_fmap. by exists p. }
      rewrite advance_ids in Hi. apply list_elem_of_fmap in Hi as (q & -> & Hq).
      rewrite Forall_forall in Hf. by apply Hf.
  - unfold fire. destruct (List.find _ _) as [t|]; [|done].
    destruct (callback t) as [|nm g sz nw hue]; cbn [runCallback]; [done|].
    unfold runBurst.
    pose proof (spawn_ids (Z.to_nat (particleCount nm g)) sz nw hue
                  (particleIdCounter (clearTimeout h w))
                  (randomCalls (clearTimeout h w))) as (Hs1 & Hs2 & Hs3).
    destruct (spawn random _ sz nw hue _ _) as [[ps c] r]. cbn [fst snd] in *.
    change (particleIdCounter (clearTimeout h w)) with (particleIdCounter w) in *.
    change (particles (clearTimeout h w)) with (particles w).
    assert (ascending 0 (Particle.id <$> (particles w ++ ps))) as Hall.
    { rewrite fmap_app.
      apply (ascending_app 0 (particleIdCounter w)); [done|done| |done].
      apply Forall_fmap. eapply Forall_impl; [exact Hf|]. done. }
    assert (Forall (λ p, (Particle.id p ≤ c)%Z) (particles w ++ ps)) as Hbound.
    { apply Forall_app. split; [|done].
      eapply Forall_impl; [exact Hf|]. cbv beta. intros; lia. }
    unfold idsAscending. cbn [particles particleIdCounter set_particles].
    split; [lia|].
    destruct (300 <? length (particles w ++ ps))%nat.
    + split; [by apply ascending_drop|]. by apply Forall_drop.
    + done.
  - done.
Qed.

Lemma run_idsAscending es w : idsAscending w → idsAscending (run random es w).
Proof.
  revert w. induction es as [|e es IH]; intros w H; [done|].
  cbn. apply IH. by apply step_idsAscending.
Qed.

Lemma dspProcess_snapshot a wd ht g m w :
  vd_particles (dspProcess random a wd ht g m w).2
  = particles (dspProcess random a wd ht g m w).1
  ∧ vd_isPulsing (dspProcess random a wd ht g m w).2
    = isPulsing (dspProcess random a wd ht g m w).1.
Proof. unfold dspProcess. by destruct (advance random _ _ _). Qed.

(** X11. In every state a bridge reaches the ids of its particles are
    positive, grow along the list and stay at or below the counter: no two
    particles of the list, or of a snapshot that [dspProcess] returns, share
    an id, whatever was pushed, cut off or filtered out before. *)
Theorem particle_ids_are_unique (es : list Event) (s : Settings.t) :
  idsAscending (run random es (init s))
  ∧ NoDup (Particle.id <$> particles (run random es (init s)))
  ∧ ∀ a wd ht g m,
      NoDup (Particle.id <$> vd_particles
               (dspProcess random a wd ht g m (run random es (init s))).2).
Proof.
  assert (idsAscending (run random es (init s))) as H.
  { apply run_idsAscending. split; [done|]. split; [done|constructor]. }
  split; [exact H|]. split.
  - destruct H as (_ & Ha & _). by apply ascending_NoDup in Ha.
  - intros a wd ht g m.
    destruct (dspProcess_snapshot a wd ht g m (run random es (init s))) as [-> _].
    apply (step_idsAscending _ (Frame a wd ht g m)) in H.
    destruct H as (_ & Ha & _). by apply ascending_NoDup in Ha.
Qed.

(** *** The pulse *)

Lemma dspProcess_fields a wd ht g m w :
  let w1 := if transientObserved a w
            then onTransient g (time a) (baseHueOf m) w else w in
  isPulsing (dspProcess random a wd ht g m w).1 = isPulsing w1
  ∧ lastTransientTime (dspProcess random a wd ht g m w).1 = lastTransientTime w1
  ∧ settings (dspProcess random a wd ht g m w).1 = settings w1.
Proof. intros w1. by rewrite dspProcess_state. Qed.

Lemma onTransient_pulse g now hue w :
  1 < Settings.mix (settings w) → isPulsing (onTransient g now hue w) = true.
Proof.
  intros H. apply normalizedMix_gate in H. unfold onTransient. cbn.
  rewrite H. by destruct (pulseTimeout w).
Qed.

Lemma onTransient_last g now hue w : lastTransientTime (onTransient g now hue w) = now.
Proof.
  unfold onTransient. cbn. destruct (Qltb 0.01 _); [|done]. by destruct (pulseTimeout w).
Qed.

Lemma runBurst_isPulsing nm g size now hue w :
  isPulsing (runBurst random nm g size now hue w) = isPulsing w
  ∧ lastTransientTime (runBurst random nm g size now hue w) = lastTransientTime w.
Proof.
  unfold runBurst. by destruct (spawn random _ size now hue _ _) as [[ps c] r].
Qed.

Lemma same_handle_same_timer (l : list Timer) (t1 t2 : Timer) :
  NoDup (handle <$> l) → t1 ∈ l → t2 ∈ l → handle t1 = handle t2 → t1 = t2.
Proof.
  induction l as [|x l IH]; intros Hnd H1 H2 E; [by apply elem_of_nil in H1|].
  cbn in Hnd. apply NoDup_cons in Hnd as [Hx Hnd].
  apply elem_of_cons in H1 as [->|H1]; apply elem_of_cons in H2 as [->|H2].
  - done.
  - exfalso. apply Hx. rewrite E. apply list_elem_of_fmap. by exists t2.
  - exfalso. apply Hx. rewrite <- E. apply list_elem_of_fmap. by exists t1.
  - by apply IH.
Qed.

Lemma step_pulseWf w e :
  timersWf w → pulseWf w → pulseWf (step random w e).
Proof.
  intros Hwf [Hi Hii]. destruct e as [a wd ht g m|h|s]; cbn [step].
  - destruct (dspProcess_timers random a wd ht g m w) as (Ht & Hp & _).
    destruct (dspProcess_fields a wd ht g m w) as (Hpu & _).
    unfold pulseWf. rewrite Ht, Hp, Hpu.
    destruct (transientObserved a w); [|done].
    destruct (Qlt_le_dec 1 (Settings.mix (settings w))) as [Hmix|Hmix].
    + destruct (onTransient_above_gate g (time a) (baseHueOf m) w Hmix) as (-> & -> & _).
      split.
      * intros t Hin Hcb. apply elem_of_app in Hin as [Hk|Hin].
        { exfalso. apply (keptTimers_pulse w t); [|done].
          apply Hi; [by apply keptTimers_elem|done]. }
        apply elem_of_cons in Hin as [->|Hin]; [done|].
        apply list_elem_of_singleton in Hin as ->. discriminate Hcb.
      * intros _. exists (mkTimer (nextHandle w) 100 PulseOff). split; [|done].
        apply elem_of_app. right. apply elem_of_cons. by left.
    + rewrite onTransient_below_gate by done. done.
  - unfold fire. destruct (List.find _ _) as [t0|] eqn:Ef; [|done].
    assert (∀ t, t ∈ timers (clearTimeout h w) → t ∈ timers w) as Hsub.
    { intros t Ht. cbn in Ht. by apply elem_of_filter_handle in Ht as [? _]. }
    destruct (callback t0) as [|nm g sz nw hue] eqn:Ecb; cbn [runCallback].
    + split; [|done]. intros t Ht Hcb. cbn. apply Hi; [by apply Hsub|done].
    + destruct (runBurst_timers random nm g sz nw hue (clearTimeout h w)) as (Et & _ & Ep).
      destruct (runBurst_isPulsing nm g sz nw hue (clearTimeout h w)) as (Eu & _).
      unfold pulseWf. rewrite Et, Ep, Eu. split.
      * intros t Ht Hcb. apply Hi; [by apply Hsub|done].
      * intros Hon. destruct (Hii Hon) as (t & Ht & Hcb). exists t. split; [|done].
        cbn. apply elem_of_filter_handle. split; [done|]. intros Eh.
        apply List.find_some in Ef as [Hin0 Eh0]. apply Pos.eqb_eq in Eh0.
        assert (t = t0) as ->.
        { apply (same_handle_same_timer (timers w)); [by destruct Hwf|done| |congruence].
          by apply list_elem_of_In. }
        congruence.
  - done.
Qed.

Lemma run_pulseWf es w :
  timersWf w → pulseWf w → pulseWf (run random es w).
Proof.
  revert w. induction es as [|e es IH]; intros w Hwf Hp; [done|].
  cbn. apply IH; [by apply step_wf|by apply step_pulseWf].
Qed.

(** X12. In every state a bridge reaches, the pulse is on only while its
    reset is pending, so that it cannot stay on; the reset that is pending is
    the one [pulseTimeout] holds; and no two resets are pending at a time. *)
Theorem pulse_is_always_reset (es : list Event) (s : Settings.t) :
  pulseWf (run random es (init s))
  ∧ ∀ t1 t2, t1 ∈ timers (run random es (init s)) →
             t2 ∈ timers (run random es (init s)) →
             callback t1 = PulseOff → callback t2 = PulseOff → t1 = t2.
Proof.
  assert (timersWf (run random es (init s))) as Hwf by apply run_wf, init_wf.
  assert (pulseWf (run random es (init s))) as Hp.
  { apply run_pulseWf; [apply init_wf|]. split; [|done].
    intros t Ht. by apply elem_of_nil in Ht. }
  split; [exact Hp|]. intros t1 t2 H1 H2 C1 C2.
  apply (same_handle_same_timer (timers (run random es (init s))));
    [by destruct Hwf|done|done|].
  destruct Hp as [Hi _]. pose proof (Hi t1 H1 C1) as E1.
  pose proof (Hi t2 H2 C2) as E2. congruence.
Qed.

(** *** The bursts that are pending *)

Lemma round_nonneg (q : Q) : 0 <= q → (0 ≤ round q)%Z.
Proof.
  intros H. unfold round. change 0%Z with (Qfloor 0). apply Qfloor_resp_le. lra.
Qed.

Lemma round_mono (q q' : Q) : q <= q' → (round q ≤ round q')%Z.
Proof. intros H. unfold round. apply Qfloor_resp_le. lra. Qed.

Lemma step_burstsAboveGate w e :
  burstsAboveGate w → burstsAboveGate (step random w e).
Proof.
  intros Hb. destruct e as [a wd ht g m|h|s]; cbn [step].
  - destruct (dspProcess_timers random a wd ht g m w) as (Ht & _).
    unfold burstsAboveGate. rewrite Ht.
    destruct (transientObserved a w); [|done].
    destruct (Qlt_le_dec 1 (Settings.mix (settings w))) as [Hmix|Hmix].
    + destruct (onTransient_above_gate g (time a) (baseHueOf m) w Hmix) as (-> & _).
      intros t nm g0 sz nw hue Hin Hcb. apply elem_of_app in Hin as [Hk|Hin].
      { apply keptTimers_elem in Hk. by eapply Hb. }
      apply elem_of_cons in Hin as [->|Hin]; [discriminate Hcb|].
      apply list_elem_of_singleton in Hin as ->. cbn in Hcb.
      injection Hcb as <- _ _ _ _. apply Qltb_lt. by apply normalizedMix_gate.
    + rewrite onTransient_below_gate by done. done.
  - unfold fire. destruct (List.find _ _) as [t0|]; [|done].
    assert (burstsAboveGate (clearTimeout h w)) as Hc.
    { intros t nm g sz nw hue Hin Hcb. cbn in Hin.
      apply elem_of_filter_handle in Hin as [Hin _]. by eapply Hb. }
    destruct (callback t0) as [|nm g sz nw hue]; cbn [runCallback]; [done|].
    destruct (runBurst_timers random nm g sz nw hue (clearTimeout h w)) as (Et & _).
    unfold burstsAboveGate. by rewrite Et.
  - done.
Qed.

Lemma run_burstsAboveGate es w :
  burstsAboveGate w → burstsAboveGate (run random es w).
Proof.
  revert w. induction es as [|e es IH]; intros w H; [done|].
  cbn. apply IH. by apply step_burstsAboveGate.
Qed.

(** X13. A burst that is pending in a state the bridge reaches was
    scheduled above the threshold, whatever the settings have become since:
    when it runs, in whatever state, it makes exactly [particleCount]
    particles, at least 10 under 'low' and at least 20 otherwise, and a
    larger mix never gives a smaller burst. *)
Theorem pending_burst_is_never_empty (es : list Event) (s : Settings.t) (t : Timer)
    (nm : Q) (g : GlobalSettings) (size now hue : Q) :
  t ∈ timers (run random es (init s)) →
  callback t = Burst nm g size now hue →
  0.01 < nm
  ∧ ((if isLow g then 10 else 20) ≤ particleCount nm g)%Z
  ∧ (∀ w, Z.of_nat (length (burstParticles random nm g size now hue w))
          = particleCount nm g
          ∧ ((if isLow g then 10 else 20)
             ≤ length (burstParticles random nm g size now hue w))%nat)
  ∧ (∀ nm', nm <= nm' → (particleCount nm g ≤ particleCount nm' g)%Z).
Proof.
  intros Hin Hcb.
  assert (0.01 < nm) as Hnm.
  { eapply (run_burstsAboveGate es (init s)); [|exact Hin|exact Hcb].
    intros t' ????? Ht'. by apply elem_of_nil in Ht'. }
  assert ((if isLow g then 10 else 20) ≤ particleCount nm g)%Z as Hc.
  { unfold particleCount.
    pose proof (round_nonneg (nm * (if isLow g then 30 else 60))) as H.
    destruct (isLow g); (assert (0 ≤ round (nm * _))%Z by (apply H; lra)); lia. }
  split; [done|]. split; [done|]. split.
  - intros w. rewrite burstParticles_length. destruct (isLow g); lia.
  - intros nm' Hle. unfold particleCount.
    pose proof (round_mono (nm * (if isLow g then 30 else 60))
                  (nm' * (if isLow g then 30 else 60))) as H.
    destruct (isLow g); (assert (round (nm * _) ≤ round (nm' * _))%Z
                           by (apply H; lra)); lia.
Qed.

(** *** What a burst pushes *)

Lemma spawn_fields n size now hue c r :
  unitRandom random →
  Forall (λ p, Particle.z p = 0 ∧ Particle.spawnTime p = now
               ∧ Particle.life p = 0.5 + (size / 100) * 1.5
               ∧ (- 0.05 <= Particle.x p ∧ Particle.x p <= 0.05)
               ∧ (- 0.05 <= Particle.y p ∧ Particle.y p <= 0.05)
               ∧ (0.5 <= Particle.opacity p ∧ Particle.opacity p <= 1)
               ∧ (1 <= Particle.size p ∧ Particle.size p <= 4)
               ∧ (hue - 30 <= Particle.color p ∧ Particle.color p <= hue + 30))
    (spawn random n size now hue c r).1.1.
Proof.
  intros Hr. revert c r. induction n as [|n IH]; intros c r; [constructor|].
  cbn [spawn]. specialize (IH (c + 1)%Z (r + 5)%nat).
  destruct (spawn random n size now hue (c + 1) (r + 5)) as [[ps c'] r'].
  cbn [fst] in *. constructor; [|done]. cbn.
  destruct (Hr r), (Hr (r + 1)%nat), (Hr (r + 2)%nat), (Hr (r + 3)%nat),
    (Hr (r + 4)%nat).
  repeat split; try done; lra.
Qed.

(** X14. With [Math.random] in [0, 1), every particle of a burst starts
    at depth 0 near the centre, at most 0.05 from it on both axes, with an
    opacity between 0.5 and 1, a size between 1 and 4, a hue at most 30 from
    the hue of the mood (every bound included), the time of the transient
    as its spawn time, and the lifetime [0.5 + (size / 100) * 1.5] of the
    size setting that was captured. *)
Theorem burst_particles_start_at_centre (nm : Q) (g : GlobalSettings)
    (size now hue : Q) (w : State) (p : Particle.t) :
  unitRandom random →
  p ∈ burstParticles random nm g size now hue w →
  Particle.z p = 0 ∧ Particle.spawnTime p = now
  ∧ Particle.life p = 0.5 + (size / 100) * 1.5
  ∧ (- 0.05 <= Particle.x p ∧ Particle.x p <= 0.05)
  ∧ (- 0.05 <= Particle.y p ∧ Particle.y p <= 0.05)
  ∧ (0.5 <= Particle.opacity p ∧ Particle.opacity p <= 1)
  ∧ (1 <= Particle.size p ∧ Particle.size p <= 4)
  ∧ (hue - 30 <= Particle.color p ∧ Particle.color p <= hue + 30).
Proof.
  intros Hr Hp. unfold burstParticles in Hp.
  pose proof (spawn_fields (Z.to_nat (particleCount nm g)) size now hue
                (particleIdCounter w) (randomCalls w) Hr) as H.
  rewrite Forall_forall in H. by apply H.
Qed.

(** X15. A burst pushes what was fixed when it was scheduled: a change of
    the settings before its delay elapses changes nothing in what the timer
    does, the two commute. *)
Theorem burst_uses_captured_settings (h : positive) (s : Settings.t) (w : State) :
  fire random h (setSettings s w) = setSettings s (fire random h w)
  ∧ particles (run random [SettingsChanged s; Elapsed h] w)
    = particles (run random [Elapsed h] w).
Proof.
  assert (fire random h (setSettings s w) = setSettings s (fire random h w)) as E.
  { unfold fire. cbn [timers setSettings].
    destruct (List.find _ _) as [t|]; [|done].
    destruct (callback t) as [|nm g sz nw hue]; cbn [runCallback]; [done|].
    unfold runBurst. cbn.
    by destruct (spawn random _ sz nw hue _ _) as [[ps c] r]. }
  split; [exact E|]. cbn. by rewrite E.
Qed.

(** *** The rate of the bursts *)

Lemma burstTimes_app l1 l2 : burstTimes (l1 ++ l2) = burstTimes l1 ++ burstTimes l2.
Proof.
  induction l1 as [|t l1 IH]; cbn; [done|]. destruct (callback t); cbn; by rewrite IH.
Qed.

Lemma burstTimes_filter_Forall (P : Q → Prop) (f : Timer → bool) l :
  Forall P (burstTimes l) → Forall P (burstTimes (List.filter f l)).
Proof.
  induction l as [|t l IH]; cbn; [done|]. intros H.
  destruct (f t); cbn; destruct (callback t); cbn in *; try by apply IH.
  - apply Forall_cons in H as [??]. constructor; [done|by apply IH].
  - apply Forall_cons in H as [??]. by apply IH.
Qed.

Lemma spaced_filter (f : Timer → bool) l :
  spaced (burstTimes l) → spaced (burstTimes (List.filter f l)).
Proof.
  induction l as [|t l IH]; cbn; [done|]. intros H.
  destruct (f t); cbn; destruct (callback t); cbn in *; try by apply IH.
  - destruct H as [H1 H2]. split; [by apply burstTimes_filter_Forall|by apply IH].
  - destruct H as [_ H2]. by apply IH.
Qed.

Lemma spaced_snoc times now :
  spaced times → Forall (λ a, a + 0.1 < now) times → spaced (times ++ [now]).
Proof.
  induction times as [|a times IH]; cbn; [done|]. intros [H1 H2] H.
  apply Forall_cons in H as [Ha H]. split; [|by apply IH].
  apply Forall_app. split; [done|]. by constructor.
Qed.

Lemma keptTimers_rate w :
  spaced (burstTimes (timers w)) → spaced (burstTimes (keptTimers w)).
Proof. unfold keptTimers. destruct (pulseTimeout w); [apply spaced_filter|done]. Qed.

Lemma keptTimers_Forall (P : Q → Prop) w :
  Forall P (burstTimes (timers w)) → Forall P (burstTimes (keptTimers w)).
Proof.
  unfold keptTimers. destruct (pulseTimeout w); [apply burstTimes_filter_Forall|done].
Qed.

Lemma step_rateLimited w e : rateLimited w → rateLimited (step random w e).
Proof.
  intros [Hs Hl]. destruct e as [a wd ht g m|h|s]; cbn [step].
  - destruct (dspProcess_timers random a wd ht g m w) as (Ht & _).
    destruct (dspProcess_fields a wd ht g m w) as (_ & Hlast & _).
    unfold rateLimited. rewrite Ht, Hlast.
    destruct (transientObserved a w) eqn:Hobs; [|done].
    apply andb_true_iff in Hobs as [_ Hgate]. apply Qltb_lt in Hgate.
    rewrite onTransient_last.
    destruct (Qlt_le_dec 1 (Settings.mix (settings w))) as [Hmix|Hmix].
    + destruct (onTransient_above_gate g (time a) (baseHueOf m) w Hmix) as (-> & _).
      rewrite burstTimes_app. cbn [burstTimes callback].
      assert (Forall (λ b, b + 0.1 < time a) (burstTimes (keptTimers w))) as Hk.
      { apply keptTimers_Forall. eapply Forall_impl; [exact Hl|].
        cbv beta. intros b Hb. lra. }
      split; [apply spaced_snoc; [by apply keptTimers_rate|done]|].
      apply Forall_app. split.
      * eapply Forall_impl; [exact Hk|]. cbv beta. intros b Hb. lra.
      * constructor; [lra|constructor].
    + rewrite onTransient_below_gate by done. cbn [timers set_lastTransientTime].
      split; [done|]. eapply Forall_impl; [exact Hl|]. cbv beta. intros b Hb. lra.
  - unfold fire. destruct (List.find _ _) as [t0|]; [|done].
    assert (rateLimited (clearTimeout h w)) as Hc.
    { split; cbn; [by apply spaced_filter|by apply burstTimes_filter_Forall]. }
    destruct (callback t0) as [|nm g sz nw hue]; cbn [runCallback]; [done|].
    destruct (runBurst_timers random nm g sz nw hue (clearTimeout h w)) as (Et & _).
    destruct (runBurst_isPulsing nm g sz nw hue (clearTimeout h w)) as (_ & El).
    unfold rateLimited. by rewrite Et, El.
  - done.
Qed.

Lemma run_rateLimited es w : rateLimited w → rateLimited (run random es w).
Proof.
  revert w. induction es as [|e es IH]; intros w H; [done|].
  cbn. apply IH. by apply step_rateLimited.
Qed.

(** X16. In every state a bridge reaches, the bursts that are pending
    stem from transients more than 0.1 apart in signal time, oldest first,
    none later than the last transient observed: transients that follow one
    another faster schedule nothing. *)
Theorem bursts_are_rate_limited (es : list Event) (s : Settings.t) :
  rateLimited (run random es (init s))
  ∧ ∀ a wd ht g m,
      transients a = true →
      time a <= lastTransientTime (run random es (init s)) + 0.1 →
      timers (dspProcess random a wd ht g m (run random es (init s))).1
      = timers (run random es (init s)).
Proof.
  split.
  - apply run_rateLimited. split; cbn; [done|constructor].
  - intros a wd ht g m Ha Hclose.
    destruct (dspProcess_timers random a wd ht g m (run random es (init s)))
      as (-> & _).
    unfold transientObserved. rewrite Ha. cbn.
    by apply Qltb_ge in Hclose as ->.
Qed.

(** *** Depth and drawing *)

Lemma spawn_depth n size now hue c r :
  Forall (λ p, Particle.z p = 0) (spawn random n size now hue c r).1.1.
Proof.
  revert c r. induction n as [|n IH]; intros c r; [constructor|].
  cbn [spawn]. specialize (IH (c + 1)%Z (r + 5)%nat).
  destruct (spawn random n size now hue (c + 1) (r + 5)) as [[ps c'] r'].
  cbn [fst] in *. by constructor.
Qed.

Lemma advance_depth ds ps r :
  0 <= ds → Forall (λ p, 0 <= Particle.z p) ps →
  Forall (λ p, 0 <= Particle.z p) (advance random ds ps r).1.
Proof.
  intros Hds. revert r. induction ps as [|p ps IH]; intros r Hps; [constructor|].
  apply Forall_cons in Hps as [Hp Hps]. cbn [advance].
  specialize (IH (r + 3)%nat Hps).
  destruct (advance random ds ps (r + 3)) as [rest r']. cbn [fst] in *.
  constructor; [cbn; lra|done].
Qed.

Lemma step_depth w e :
  intensityInRange e →
  Forall (λ p, 0 <= Particle.z p) (particles w) →
  Forall (λ p, 0 <= Particle.z p) (particles (step random w e)).
Proof.
  intros He Hz. destruct e as [a wd ht g m|h|s]; cbn [step].
  - destruct He as [H0 H100]. destruct (depthSpeedOf_bounds g H0 H100) as [Hds _].
    rewrite dspProcess_particles. apply Forall_forall. intros p Hp.
    apply list_elem_of_In, List.filter_In in Hp as [Hp _]. apply list_elem_of_In in Hp.
    assert (0 <= depthSpeedOf g) as Hds0 by lra.
    pose proof (advance_depth (depthSpeedOf g) (particles w) (randomCalls w) Hds0 Hz)
      as H.
    rewrite Forall_forall in H. by apply H.
  - unfold fire. destruct (List.find _ _) as [t|]; [|done].
    destruct (callback t) as [|nm g sz nw hue]; cbn [runCallback]; [done|].
    rewrite runBurst_particles. apply Forall_drop, Forall_app. split; [done|].
    eapply Forall_impl; [apply spawn_depth|]. cbv beta. intros p ->. lra.
  - done.
Qed.

Lemma run_depth es w :
  Forall intensityInRange es →
  Forall (λ p, 0 <= Particle.z p) (particles w) →
  Forall (λ p, 0 <= Particle.z p) (particles (run random es w)).
Proof.
  revert w. induction es as [|e es IH]; intros w Hes Hz; [done|].
  apply Forall_cons in Hes as [He Hes]. cbn. apply IH; [done|]. by apply step_depth.
Qed.

End Spec.

(** *** The statements at the example bridge *)

Lemma pending_burst_is_never_empty_at_example :
  (10 ≤ particleCount (50 / 100) Examples.low)%Z.
Proof.
  assert (Examples.firstBurst
          ∈ timers (run Examples.random [Examples.transient 1]
                      (init (Examples.verb 50)))) as Hin.
  { replace (timers _)
      with [mkTimer 1 100 PulseOff; Examples.firstBurst] by reflexivity.
    apply elem_of_cons. right. apply elem_of_cons. by left. }
  exact (proj1 (proj2 (pending_burst_is_never_empty Examples.random
                         [Examples.transient 1] (Examples.verb 50)
                         Examples.firstBurst _ _ _ _ _ Hin eq_refl))).
Defined.

Lemma unitRandom_example : unitRandom Examples.random.
Proof. intros n. unfold Examples.random. split; lra. Qed.

Lemma burst_particles_start_at_centre_at_example :
  ∃ p, p ∈ burstParticles Examples.random (50 / 100) Examples.low 50 1 40
             (init (Examples.verb 50))
       ∧ Particle.z p = 0 ∧ Particle.life p = 0.5 + (50 / 100) * 1.5.
Proof.
  assert (∃ p rest, burstParticles Examples.random (50 / 100) Examples.low 50 1 40
                      (init (Examples.verb 50)) = p :: rest) as (p & rest & E).
  { vm_compute. eauto. }
  exists p.
  assert (p ∈ burstParticles Examples.random (50 / 100) Examples.low 50 1 40
                (init (Examples.verb 50))) as Hp.
  { rewrite E. apply elem_of_cons. by left. }
  split; [exact Hp|].
  pose proof (burst_particles_start_at_centre Examples.random (50 / 100) Examples.low
                50 1 40 (init (Examples.verb 50)) p unitRandom_example Hp)
    as (Hz & _ & Hl & _).
  split; [exact Hz|exact Hl].
Defined.

End BridgeSpec.

(** ** The view of the particles *)

Module VisualizerSpec.
Import MixxVerb MixxVerbSpec BridgeInvariants BridgeSpec ReverbSpaceVisualizer.

Local Open Scope Q_scope.

Lemma scale_eq (p : Particle.t) :
  0 <= Particle.z p → scale p == 1 / (1 + (7 # 10) * Particle.z p).
Proof.
  intros Hz. unfold scale, zPos, perspective. field. split; lra.
Qed.

Lemma scale_range (p : Particle.t) : 0 <= Particle.z p → 0 < scale p ∧ scale p <= 1.
Proof.
  intros Hz. rewrite (scale_eq p Hz).
  assert (0 < 1 + (7 # 10) * Particle.z p) as Hd by lra. split.
  - apply Qlt_shift_div_l; [done|]. lra.
  - apply Qle_shift_div_r; [done|]. lra.
Qed.

Lemma scale_antitone (p q : Particle.t) :
  0 <= Particle.z p → Particle.z p <= Particle.z q → scale q <= scale p.
Proof.
  intros Hp Hpq. rewrite (scale_eq p Hp), (scale_eq q) by lra.
  assert (0 < 1 + (7 # 10) * Particle.z p) as Hdp by lra.
  assert (0 < 1 + (7 # 10) * Particle.z q) as Hdq by lra.
  apply Qle_shift_div_l; [done|].
  assert (1 / (1 + (7 # 10) * Particle.z q) * (1 + (7 # 10) * Particle.z p)
          == (1 + (7 # 10) * Particle.z p) / (1 + (7 # 10) * Particle.z q)) as ->.
  { field. lra. }
  apply Qle_shift_div_r; [done|]. lra.
Qed.

(** X17. Along a run whose frames are drawn with an animation intensity
    between 0 and 100, no particle has a negative depth, so that every
    particle is drawn at a scale above 0 and at most 1, at most as wide as
    its size, and pushed back from the screen; of two such particles the
    deeper one is drawn at the smaller scale. *)
Theorem particles_shrink_with_depth (random : nat → Q) (es : list Event)
    (s : Settings.t) (p : Particle.t) :
  Forall intensityInRange es →
  p ∈ particles (run random es (init s)) →
  0 <= Particle.z p
  ∧ (0 < scale p ∧ scale p <= 1)
  ∧ (0 <= Particle.size p → width p <= Particle.size p)
  ∧ translateZ p <= 0
  ∧ ∀ q, q ∈ particles (run random es (init s)) →
         Particle.z p <= Particle.z q → scale q <= scale p.
Proof.
  intros Hes Hp.
  assert (Forall (λ p, 0 <= Particle.z p) (particles (run random es (init s)))) as Hz.
  { apply run_depth; [done|constructor]. }
  rewrite Forall_forall in Hz. pose proof (Hz p Hp) as Hzp.
  destruct (scale_range p Hzp) as [Hs0 Hs1].
  split; [done|]. split; [done|]. split; [|split].
  - intros Hsz. unfold width. nra.
  - unfold translateZ, zPos, perspective. lra.
  - intros q Hq Hpq. by apply scale_antitone.
Qed.

Lemma particles_shrink_with_depth_at_example :
  ∃ p, p ∈ particles
             (run Examples.random
                [Examples.transient 1; Elapsed 2; Examples.silence 1.2]
                (init (Examples.verb 50)))
       ∧ 0 < scale p ∧ scale p <= 1.
Proof.
  assert (∃ p rest, particles
                      (run Examples.random
                         [Examples.transient 1; Elapsed 2; Examples.silence 1.2]
                         (init (Examples.verb 50))) = p :: rest) as (p & rest & E).
  { vm_compute. eauto. }
  exists p.
  assert (p ∈ particles
                (run Examples.random
                   [Examples.transient 1; Elapsed 2; Examples.silence 1.2]
                   (init (Examples.verb 50)))) as Hp.
  { rewrite E. apply elem_of_cons. by left. }
  split; [exact Hp|].
  assert (Forall intensityInRange
            [Examples.transient 1; Elapsed 2; Examples.silence 1.2]) as Hes.
  { repeat constructor; cbn; lra. }
  exact (proj1 (proj2 (particles_shrink_with_depth Examples.random _ _ p Hes Hp))).
Defined.

End VisualizerSpec.

(** ** The tilt of the container *)

Module PluginContainerSpec.
Import PluginContainer.

Local Open Scope Q_scope.

Lemma fraction_of_extent (pos lo extent : Q) :
  0 < extent → lo <= pos → pos <= lo + extent →
  - 0.5 <= (pos - lo) / extent - 0.5 ∧ (pos - lo) / extent - 0.5 <= 0.5.
Proof.
  intros He Hlo Hhi.
  assert (0 <= (pos - lo) / extent) as H0.
  { apply Qle_shift_div_l; [done|]. lra. }
  assert ((pos - lo) / extent <= 1) as H1.
  { apply Qle_shift_div_r; [done|]. lra. }
  split; lra.
Qed.

(** X18. While the panel is dragged or resized, and when the pointer
    leaves it, the tilt is put back to rest. Otherwise a pointer over an
    element of positive width and height sets [x] and [y] between -0.5 and
    0.5, to 0 at the centre of the element, to -0.5 at its left and upper
    edge and 0.5 at its right and lower edge, and the scale to 1.01; a
    pointer further to the right gives a strictly larger [x] and the same
    [y], a pointer further down a strictly larger [y] and the same [x]. *)
Theorem pointer_position_is_normalized (e : MouseEvent) (m : Motion) :
  (∀ d r, d || r = true →
     handleMouseMove d r e m = rest ∧ onInteractionChange d r m = rest)
  ∧ handleMouseLeave m = rest
  ∧ (0 < width (rect e) → 0 < height (rect e) → inside e →
       (- 0.5 <= x (handleMouseMove false false e m)
        ∧ x (handleMouseMove false false e m) <= 0.5)
       ∧ (- 0.5 <= y (handleMouseMove false false e m)
          ∧ y (handleMouseMove false false e m) <= 0.5)
       ∧ scale (handleMouseMove false false e m) = 1.01)
  ∧ (0 < width (rect e) → 0 < height (rect e) →
       clientX e == left (rect e) + width (rect e) / 2 →
       clientY e == top (rect e) + height (rect e) / 2 →
       x (handleMouseMove false false e m) == 0
       ∧ y (handleMouseMove false false e m) == 0)
  ∧ (0 < width (rect e) → 0 < height (rect e) →
       (clientX e == left (rect e) → x (handleMouseMove false false e m) == - 0.5)
       ∧ (clientX e == left (rect e) + width (rect e)
          → x (handleMouseMove false false e m) == 0.5)
       ∧ (clientY e == top (rect e) → y (handleMouseMove false false e m) == - 0.5)
       ∧ (clientY e == top (rect e) + height (rect e)
          → y (handleMouseMove false false e m) == 0.5))
  ∧ (∀ cx, 0 < width (rect e) → clientX e <= cx →
       x (handleMouseMove false false e m)
       <= x (handleMouseMove false false (mkMouseEvent cx (clientY e) (rect e)) m))
  ∧ (∀ cx, 0 < width (rect e) → clientX e < cx →
       x (handleMouseMove false false e m)
       < x (handleMouseMove false false (mkMouseEvent cx (clientY e) (rect e)) m)
       ∧ y (handleMouseMove false false (mkMouseEvent cx (clientY e) (rect e)) m)
         = y (handleMouseMove false false e m))
  ∧ (∀ cy, 0 < height (rect e) → clientY e < cy →
       y (handleMouseMove false false e m)
       < y (handleMouseMove false false (mkMouseEvent (clientX e) cy (rect e)) m)
       ∧ x (handleMouseMove false false (mkMouseEvent (clientX e) cy (rect e)) m)
         = x (handleMouseMove false false e m)).
Proof.
  split.
  { intros d r H. unfold handleMouseMove, onInteractionChange. by rewrite H. }
  split; [done|]. split; [|split; [|split; [|split; [|split]]]].
  - intros Hw Hh (Hx1 & Hx2 & Hy1 & Hy2). cbn.
    split; [by apply fraction_of_extent|]. split; [by apply fraction_of_extent|done].
  - intros Hw Hh Hx Hy. cbn. rewrite Hx, Hy. split; field; lra.
  - intros Hw Hh. cbn.
    repeat split; intros ->; field; lra.
  - intros cx Hw Hle. cbn.
    assert (∀ a, a / width (rect e) == a * / width (rect e)) as E by (intros; reflexivity).
    assert (0 < / width (rect e)) as Hinv by (by apply Qinv_lt_0_compat).
    rewrite !E. nra.
  - intros cx Hw Hlt. cbn. split; [|done].
    assert (∀ a, a / width (rect e) == a * / width (rect e)) as E by (intros; reflexivity).
    assert (0 < / width (rect e)) as Hinv by (by apply Qinv_lt_0_compat).
    rewrite !E. nra.
  - intros cy Hh Hlt. cbn. split; [|done].
    assert (∀ a, a / height (rect e) == a * / height (rect e)) as E by (intros; reflexivity).
    assert (0 < / height (rect e)) as Hinv by (by apply Qinv_lt_0_compat).
    rewrite !E. nra.
Qed.

Lemma pointer_position_is_normalized_at_example :
  x (handleMouseMove false false
       (mkMouseEvent 150 260 (mkDOMRect 100 200 400 300)) rest) == - (3 # 8)
  ∧ - 0.5 <= y (handleMouseMove false false
                  (mkMouseEvent 150 260 (mkDOMRect 100 200 400 300)) rest).
Proof.
  pose proof (pointer_position_is_normalized
                (mkMouseEvent 150 260 (mkDOMRect 100 200 400 300)) rest)
    as (_ & _ & H & _).
  split; [by vm_compute|].
  apply H; [by vm_compute|by vm_compute|].
  unfold inside. cbn. repeat split; by vm_compute.
Defined.

End PluginContainerSpec.

(** ** The audio player *)

Module AIAudioPlayerSpec.
Import AIAudioPlayer.

(** What every reachable world satisfies. *)
Lemma step_keeps_one_in_flight (trim : string → string) (w : World) (e : Event) :
  inFlight w = (if isLoading (ui w) then 1 else 0)%nat →
  (count isAudio w + inFlight w ≤ count isStop w)%nat →
  inFlight (step trim w e) = (if isLoading (ui (step trim w e)) then 1 else 0)%nat
  ∧ (count isAudio (step trim w e) + inFlight (step trim w e)
     ≤ count isStop (step trim w e))%nat.
Proof.
  intros H1 H2. unfold count in *.
  assert (∀ w', w' = handleGenerate trim w →
            inFlight w' = (if isLoading (ui w') then 1 else 0)%nat
            ∧ (length (List.filter isAudio (calls w')) + inFlight w'
               ≤ length (List.filter isStop (calls w')))%nat) as Hgen.
  { intros w' ->. unfold handleGenerate.
    destruct (String.eqb (trim (prompt (ui w))) ""); cbn; [done|].
    destruct (isLoading (ui w)) eqn:El; cbn; [by rewrite El|].
    split; [lia|]. lia. }
  destruct e as [key| | |text|playing|o]; cbn [step].
  - unfold handleKeyDown. destruct (String.eqb key "Enter"); [by apply Hgen|].
    destruct (String.eqb key "Escape"); cbn; by split.
  - by apply Hgen.
  - cbn. by split.
  - cbn. by split.
  - destruct playing; cbn; by split.
  - unfold settle. destruct (inFlight w) as [|n] eqn:En; [rewrite En; by split|].
    assert (n = 0)%nat as -> by (destruct (isLoading (ui w)); lia).
    destruct o as [[d|]|]; cbn; [|split; [done|lia]..].
    destruct (String.eqb d ""); cbn; split; try done; lia.
Qed.

(** X19. Generations never overlap: in every state the player reaches at
    most one [handleGenerate] is between its guard and its [finally], and
    [isLoading] is on exactly while one is; and audio is handed on only for
    a generation that stopped the playback first, so that the calls of
    [onAudioReady] and the generation in flight together never outnumber the
    calls of [onStop]. *)
Theorem generations_never_overlap (trim : string → string) (es : list Event) :
  inFlight (run trim es init)
  = (if isLoading (ui (run trim es init)) then 1 else 0)%nat
  ∧ (inFlight (run trim es init) ≤ 1)%nat
  ∧ (count isAudio (run trim es init) + inFlight (run trim es init)
     ≤ count isStop (run trim es init))%nat.
Proof.
  assert (∀ w, inFlight w = (if isLoading (ui w) then 1 else 0)%nat →
               (count isAudio w + inFlight w ≤ count isStop w)%nat →
               inFlight (run trim es w)
               = (if isLoading (ui (run trim es w)) then 1 else 0)%nat
               ∧ (count isAudio (run trim es w) + inFlight (run trim es w)
                  ≤ count isStop (run trim es w))%nat) as H.
  { induction es as [|e es IH]; intros w H1 H2; [done|].
    cbn. destruct (step_keeps_one_in_flight trim w e H1 H2) as [H3 H4].
    by apply IH. }
  destruct (H init) as [H1 H2]; [done|cbn; lia|].
  split; [exact H1|]. split; [|exact H2].
  rewrite H1. destruct (isLoading _); lia.
Qed.

End AIAudioPlayerSpec.
